(** * Streaming codecs of iconv-lite: CESU-8, base64, UTF-32 and UTF-32 auto

    A shallow embedding of [encodings/internal.js] (the CESU-8 encoder and
    decoder and the streaming base64 encoder) and of [encodings/utf32.js]
    (the UTF-32LE/BE encoder and decoder, the UTF-32 auto encoder and
    decoder and their endianness detector), followed by the properties
    of these sessions.

    Conventions.
    - A JavaScript string is the list of its UTF-16 code units, each a [Z]
      in [0, 0xFFFF] ([is_u16]).
    - A Buffer is the list of its octets, each a [Z] in [0, 0xFF] ([is_byte]).
      A store [buf[k] = v] keeps [v] modulo 256 ([ToUint8]).
    - The bit operators of JavaScript work on 32-bit integers: their
      operands go through [ToInt32] and so does the result of [<<].
    - A session object is a record; a method takes the record and returns
      its result together with the updated record. *)

From Stdlib Require Import String Ascii.
From Stdlib Require Import ZArith List Bool Lia.
Import ListNotations.
Local Open Scope Z_scope.

(* ================================================================== *)
(** ** JavaScript primitives *)

Module JS.

Definition jsstring := list Z.
Definition buffer := list Z.

Definition is_byte (b : Z) : Prop := 0 <= b < 256.
Definition is_u16 (c : Z) : Prop := 0 <= c < 65536.

(** [ToInt32]: reduce modulo 2^32 into [-2^31, 2^31). *)
Definition ToInt32 (z : Z) : Z := (z + 2147483648) mod 4294967296 - 2147483648.
(** [ToUint32]: reduce modulo 2^32 into [0, 2^32). *)
Definition ToUint32 (z : Z) : Z := z mod 4294967296.
Definition ToUint16 (z : Z) : Z := z mod 65536.
Definition ToUint8 (z : Z) : Z := z mod 256.

(** [a | b], [a & b], [a << n], [a >> n], [a >>> n]. *)
Definition bor (a b : Z) : Z := Z.lor (ToInt32 a) (ToInt32 b).
Definition band (a b : Z) : Z := Z.land (ToInt32 a) (ToInt32 b).
Definition shl (a n : Z) : Z := ToInt32 (Z.shiftl (ToInt32 a) (n mod 32)).
Definition sar (a n : Z) : Z := Z.shiftr (ToInt32 a) (n mod 32).
Definition shr (a n : Z) : Z := Z.shiftr (ToUint32 a) (n mod 32).

(** Truthiness of a number: everything but 0 (and NaN, which no number
    of these programs is). *)
Definition truthy (z : Z) : bool := negb (z =? 0).

(** [arr[i]] on an Array of numbers: [None] stands for [undefined]. *)
Definition index (arr : list Z) (i : nat) : option Z := nth_error arr i.

(** The number a bit operator sees for an operand that may be
    [undefined]: [ToInt32(undefined)] is 0. *)
Definition num (v : option Z) : Z :=
  match v with Some z => z | None => 0 end.

(** [String.fromCharCode(n)] is the one code unit [ToUint16(n)]. *)
Definition fromCharCode (n : Z) : jsstring := [ToUint16 n].

(** [buf.toString("ucs2")]: little-endian pairs of octets; an odd last
    octet is dropped. *)
Fixpoint ucs2_toString (buf : buffer) : jsstring :=
  match buf with
  | lo :: hi :: rest => (lo + 256 * hi) :: ucs2_toString rest
  | _ => []
  end.

(** [str.slice(0, n)] and [str.slice(n)] for [0 <= n]. *)
Definition slice_to {A} (n : nat) (l : list A) : list A := firstn n l.
Definition slice_from {A} (n : nat) (l : list A) : list A := skipn n l.

End JS.

(* ================================================================== *)
(** ** encodings/internal.js: the CESU-8 encoder *)

Module Cesu8Encoder.
Import JS.

(** The encoder has no fields. *)
Definition hasState : bool := false.

(** One turn of the loop of [byteLength]. *)
Definition byteLength_step (byteLength : Z) (charCode : Z) : Z :=
  if charCode <? 0x80 then byteLength + 1
  else if charCode <? 0x800 then byteLength + 2
  else byteLength + 3.

Definition byteLength (str : jsstring) : Z :=
  fold_left byteLength_step str 0.

(** One turn of the loop of [write]: the octets stored at
    [buf[bufIdx++]] for the code unit [charCode]. [buf] is allocated with
    [3 * str.length] octets and a turn stores at most 3, so no store
    falls outside of it; the model keeps [buf.slice(0, bufIdx)]. *)
Definition write_step (buf : buffer) (charCode : Z) : buffer :=
  if charCode <? 0x80 then
    buf ++ [ToUint8 charCode]
  else if charCode <? 0x800 then
    buf ++ [ToUint8 (0xc0 + shr charCode 6);
            ToUint8 (0x80 + band charCode 0x3f)]
  else
    buf ++ [ToUint8 (0xe0 + shr charCode 12);
            ToUint8 (0x80 + band (shr charCode 6) 0x3f);
            ToUint8 (0x80 + band charCode 0x3f)].

Definition write (str : jsstring) : buffer :=
  fold_left write_step str [].

(** [end() {}] returns [undefined]: no octets. *)
Definition end_ : buffer := [].

End Cesu8Encoder.

(* ================================================================== *)
(** ** encodings/internal.js: the CESU-8 decoder *)

Module Cesu8Decoder.
Import JS.

Record t := mk {
  acc : Z;
  contBytes : Z;
  accBytes : Z;
  defaultCharUnicode : jsstring
}.

(** [constructor(options, codec)] *)
Definition new (codec_defaultCharUnicode : jsstring) : t :=
  mk 0 0 0 codec_defaultCharUnicode.

Definition hasState (d : t) : bool := 0 <? contBytes d.

(** The locals of [write]: [acc], [contBytes], [accBytes], [res]. *)
Record locals := mkL {
  l_acc : Z;
  l_contBytes : Z;
  l_accBytes : Z;
  l_res : jsstring
}.

(** The body of the loop of [write] for the octet [curByte];
    [dcu] is [this.defaultCharUnicode]. *)
Definition write_step (dcu : jsstring) (l : locals) (curByte : Z) : locals :=
  let '(mkL acc contBytes accBytes res) := l in
  if negb (band curByte 0xc0 =? 0x80) then
    (* Leading byte *)
    let '(res, contBytes) :=
      if 0 <? contBytes then (res ++ dcu, 0) else (res, contBytes) in
    if curByte <? 0x80 then
      mkL acc contBytes accBytes (res ++ fromCharCode curByte)
    else if curByte <? 0xe0 then
      mkL (band curByte 0x1f) 1 1 res
    else if curByte <? 0xf0 then
      mkL (band curByte 0x0f) 2 1 res
    else
      mkL acc contBytes accBytes (res ++ dcu)
  else
    (* Continuation byte *)
    if 0 <? contBytes then
      let acc := bor (shl acc 6) (band curByte 0x3f) in
      let contBytes := contBytes - 1 in
      let accBytes := accBytes + 1 in
      if contBytes =? 0 then
        if (accBytes =? 2) && (acc <? 0x80) && (0 <? acc) then
          mkL acc contBytes accBytes (res ++ dcu)
        else if (accBytes =? 3) && (acc <? 0x800) then
          mkL acc contBytes accBytes (res ++ dcu)
        else
          mkL acc contBytes accBytes (res ++ fromCharCode acc)
      else
        mkL acc contBytes accBytes res
    else
      mkL acc contBytes accBytes (res ++ dcu).

Definition write (d : t) (buf : buffer) : jsstring * t :=
  let l0 := mkL (acc d) (contBytes d) (accBytes d) [] in
  let l := fold_left (write_step (defaultCharUnicode d)) buf l0 in
  (l_res l,
   mk (l_acc l) (l_contBytes l) (l_accBytes l) (defaultCharUnicode d)).

(** [end()] returns the replacement when a sequence is open; it assigns
    no field. *)
Definition end_ (d : t) : jsstring * t :=
  ((if 0 <? contBytes d then defaultCharUnicode d else []), d).

End Cesu8Decoder.

(* ================================================================== *)
(** ** encodings/internal.js: the streaming base64 encoder *)

Module Base64Encoder.
Import JS.

Record t := mk { prevStr : jsstring }.

Definition new : t := mk [].

Definition hasState (e : t) : bool := (0 <? length (prevStr e))%nat.

(** Does [=*$] match at the start of [s], that is, is [s] made of '='
    (code unit 61) only? *)
Definition only_padding (s : jsstring) : bool := forallb (fun c => c =? 61) s.

(** [str.search(/=*$/)] from index [p] on: the first index at which the
    pattern matches, or -1. *)
Fixpoint search_from (s : jsstring) (p : Z) : Z :=
  if only_padding s then p
  else match s with
       | [] => -1
       | _ :: s' => search_from s' (p + 1)
       end.

Definition search_padding (s : jsstring) : Z := search_from s 0.

Definition byteLength (e : t) (str : jsstring) : Z :=
  let byteLength := 0 in
  let len := Z.of_nat (length str) in
  let completeQuads := len - len mod 4 in
  let prevStr := slice_from (Z.to_nat completeQuads) str in
  let str := slice_to (Z.to_nat completeQuads) str in
  let nonPaddedLength := search_padding str in
  let nonPaddedLength :=
    if nonPaddedLength =? -1 then Z.of_nat (length str) else nonPaddedLength in
  let byteLength := byteLength + (nonPaddedLength * 3) / 4 in
  let nonPaddedLength := search_padding prevStr in
  let nonPaddedLength :=
    if nonPaddedLength =? -1 then Z.of_nat (length str) else nonPaddedLength in
  let byteLength := byteLength + (nonPaddedLength * 3) / 4 in
  byteLength.

Section Host.
(** [Buffer.from(str, "base64")], the base64 decoder of the platform. *)
Variable base64_decode : jsstring -> buffer.

Definition write (e : t) (str : jsstring) : buffer * t :=
  let str := prevStr e ++ str in
  let len := Z.of_nat (length str) in
  let completeQuads := len - len mod 4 in
  let e := mk (slice_from (Z.to_nat completeQuads) str) in
  let str := slice_to (Z.to_nat completeQuads) str in
  (base64_decode str, e).

(** [end()] decodes [this.prevStr]; it assigns no field. *)
Definition end_ (e : t) : buffer * t :=
  (base64_decode (prevStr e), e).
End Host.

(** The number of code units of [s] other than '='. *)
Definition count_data (s : jsstring) : Z :=
  Z.of_nat (length (filter (fun c => negb (c =? 61)) s)).

(** What the proofs need of the platform's decoder: every 4 characters
    give at most 3 octets and '=' gives none. *)
Definition decoder_bounded (base64_decode : jsstring -> buffer) : Prop :=
  forall s, Z.of_nat (length (base64_decode s)) <= (count_data s * 3) / 4.

(** A decoder in the manner of Node's: a character outside of the
    alphabet is skipped, '=' ends the input, every character of the
    alphabet carries 6 bits and every 8 bits collected give an octet. *)
Definition unbase64 (c : Z) : option Z :=
  if (65 <=? c) && (c <=? 90) then Some (c - 65)
  else if (97 <=? c) && (c <=? 122) then Some (c - 71)
  else if (48 <=? c) && (c <=? 57) then Some (c + 4)
  else if (c =? 43) || (c =? 45) then Some 62
  else if (c =? 47) || (c =? 95) then Some 63
  else None.

(** [bits] is the number of bits waiting in [acc]. *)
Fixpoint node_decode_from (s : jsstring) (acc bits : Z) : buffer :=
  match s with
  | [] => []
  | c :: s' =>
      if c =? 61 then []
      else match unbase64 c with
           | None => node_decode_from s' acc bits
           | Some v =>
               let acc := acc * 64 + v in
               let bits := bits + 6 in
               if 8 <=? bits then
                 ((acc / 2 ^ (bits - 8)) mod 256)
                   :: node_decode_from s' (acc mod 2 ^ (bits - 8)) (bits - 8)
               else node_decode_from s' acc bits
           end
  end.

Definition node_base64_decode (s : jsstring) : buffer :=
  node_decode_from s 0 0.

End Base64Encoder.

(* ================================================================== *)
(** ** Exceptions *)

Module Exn.

(** The one exception these programs can raise: the [RangeError]
    ([ERR_OUT_OF_RANGE]) of a Buffer write method. *)
Inductive exn := RangeError.

Inductive outcome (A : Type) : Type :=
| Ok (a : A)
| Throw (e : exn).
Arguments Ok {A} a.
Arguments Throw {A} e.

Definition bind {A B} (m : outcome A) (k : A -> outcome B) : outcome B :=
  match m with
  | Ok a => k a
  | Throw e => Throw e
  end.

Definition returns {A} (m : outcome A) : bool :=
  match m with Ok _ => true | Throw _ => false end.

End Exn.

Notation "x <- m ;; k" := (Exn.bind m (fun x => k))
  (at level 61, m at next level, right associativity).

(* ================================================================== *)
(** ** encodings/utf32.js: the UTF-32LE/BE encoder *)

Module Utf32Encoder.
Import JS Exn.

Record t := mk { isLE : bool; highSurrogate : Z }.

(** [constructor(options, codec)] *)
Definition new (codec_isLE : bool) : t := mk codec_isLE 0.

Definition hasState (e : t) : bool := truthy (highSurrogate e).

(** The four octets of [value] as [writeUInt32LE] and [writeUInt32BE]
    lay them out. *)
Definition bytes32 (isLE : bool) (value : Z) : buffer :=
  let b0 := value mod 256 in
  let b1 := (value / 256) mod 256 in
  let b2 := (value / 65536) mod 256 in
  let b3 := (value / 16777216) mod 256 in
  if isLE then [b0; b1; b2; b3] else [b3; b2; b1; b0].

(** [write32.call(dst, value, offset)] on a buffer [dst] of [cap] octets
    of which the model keeps the [offset] first ones, [dst.slice(0,
    offset)]. The method raises a [RangeError] unless
    [0 <= value <= 0xFFFFFFFF] and [offset + 4 <= dst.length]. *)
Definition write32 (isLE : bool) (cap : nat) (dst : buffer) (value : Z)
  : outcome buffer :=
  if (0 <=? value) && (value <=? 0xffffffff)
     && (length dst + 4 <=? cap)%nat
  then Ok (dst ++ bytes32 isLE value)
  else Throw RangeError.

Definition isHighSurrogate (code : Z) : bool :=
  (0xd800 <=? code) && (code <? 0xdc00).
Definition isLowSurrogate (code : Z) : bool :=
  (0xdc00 <=? code) && (code <? 0xe000).

(** The end of the body of the loop of [write], from
    [if (isHighSurrogate)] on. *)
Definition write_tail (isLE : bool) (cap : nat) (dst : buffer) (code : Z)
  : outcome (Z * buffer) :=
  if isHighSurrogate code then Ok (code, dst)
  else
    dst <- write32 isLE cap dst code ;;
    Ok (0, dst).

(** The body of the loop of [write] for the code unit [code] read by
    [src.readUInt16LE(i)]; [hs] is [this.highSurrogate]. *)
Definition write_step (isLE : bool) (cap : nat) (st : Z * buffer) (code : Z)
  : outcome (Z * buffer) :=
  let '(hs, dst) := st in
  if truthy hs then
    if isHighSurrogate code || negb (isLowSurrogate code) then
      dst <- write32 isLE cap dst hs ;;
      write_tail isLE cap dst code
    else
      let codepoint :=
        bor (shl (hs - 0xd800) 10) (code - 0xdc00) + 0x10000 in
      dst <- write32 isLE cap dst codepoint ;;
      Ok (0, dst)
  else write_tail isLE cap dst code.

Fixpoint write_loop (isLE : bool) (cap : nat) (st : Z * buffer)
  (str : jsstring) : outcome (Z * buffer) :=
  match str with
  | [] => Ok st
  | code :: str' =>
      st <- write_step isLE cap st code ;;
      write_loop isLE cap st str'
  end.

(** [write(str)]: [src] has [2 * str.length] octets and [dst] is
    allocated with [src.length * 2]. *)
Definition write (e : t) (str : jsstring) : outcome (buffer * t) :=
  let cap := (2 * length str * 2)%nat in
  st <- write_loop (isLE e) cap (highSurrogate e, []) str ;;
  Ok (snd st, mk (isLE e) (fst st)).

(** One turn of the loop of [byteLength] on the locals
    [(byteLength, currentHighSurrogate)]. *)
Definition byteLength_step (st : Z * Z) (code : Z) : Z * Z :=
  let '(byteLength, currentHighSurrogate) := st in
  if truthy currentHighSurrogate then
    if isHighSurrogate code || negb (isLowSurrogate code) then
      let byteLength := byteLength + 4 in
      if isHighSurrogate code then (byteLength, code)
      else (byteLength + 4, 0)
    else (byteLength + 4, 0)
  else
    if isHighSurrogate code then (byteLength, code)
    else (byteLength + 4, 0).

Definition byteLength (e : t) (str : jsstring) : Z :=
  let '(byteLength, currentHighSurrogate) :=
    fold_left byteLength_step str (0, 0) in
  if truthy currentHighSurrogate then byteLength + 4 else byteLength.

(** [end()]: [None] is [undefined]. *)
Definition end_ (e : t) : outcome (option buffer * t) :=
  if negb (truthy (highSurrogate e)) then Ok (None, e)
  else
    buf <- write32 (isLE e) 4 [] (highSurrogate e) ;;
    Ok (Some buf, mk (isLE e) 0).

(** The number of octets of a result of [end()]. *)
Definition out_length (r : option buffer) : Z :=
  match r with Some b => Z.of_nat (length b) | None => 0 end.

End Utf32Encoder.

(* ================================================================== *)
(** ** encodings/utf32.js: the UTF-32LE/BE decoder *)

Module Utf32Decoder.
Import JS.

Record t := mk { isLE : bool; badChar : Z; overflow : list Z }.

(** [defaultCharUnicode.charCodeAt(0)]; on the empty string it is NaN,
    which [& 0xff] and [>> 8] turn into 0. *)
Definition charCodeAt0 (s : jsstring) : Z := hd 0 s.

(** [constructor(options, codec)] *)
Definition new (codec_isLE : bool) (defaultCharUnicode : jsstring) : t :=
  mk codec_isLE (charCodeAt0 defaultCharUnicode) [].

Definition hasState (d : t) : bool := (0 <? length (overflow d))%nat.

(** [_writeCodepoint(dst, offset, codepoint, badChar)]. [dst] is
    allocated with [src.length + 4] octets, which the stores of a
    [write] never exceed (see [write_octets_fit]); the model keeps
    [dst.slice(0, offset)]. *)
Definition _writeCodepoint (dst : buffer) (codepoint badChar : Z) : buffer :=
  let codepoint :=
    if (codepoint <? 0) || (0x10ffff <? codepoint) then badChar
    else codepoint in
  if 0x10000 <=? codepoint then
    let codepoint := codepoint - 0x10000 in
    let high := bor 0xd800 (sar codepoint 10) in
    let dst := dst ++ [ToUint8 (band high 0xff); ToUint8 (sar high 8)] in
    let codepoint := bor 0xdc00 (band codepoint 0x3ff) in
    dst ++ [ToUint8 (band codepoint 0xff); ToUint8 (sar codepoint 8)]
  else
    dst ++ [ToUint8 (band codepoint 0xff); ToUint8 (sar codepoint 8)].

(** The 32-bit value of four operands in the order of the flag. *)
Definition codepoint_of (isLE : bool) (x0 x1 x2 x3 : Z) : Z :=
  if isLE then bor (bor (bor x0 (shl x1 8)) (shl x2 16)) (shl x3 24)
  else bor (bor (bor x3 (shl x2 8)) (shl x1 16)) (shl x0 24).

(** [for (; i < src.length && overflow.length < 4; i++)
       overflow.push(src[i]);]
    [rest] is [src] from index [i] on. *)
Fixpoint drain (overflow rest : list Z) (i : nat) : list Z * list Z * nat :=
  match rest with
  | b :: rest' =>
      if (length overflow <? 4)%nat
      then drain (overflow ++ [b]) rest' (S i)
      else (overflow, rest, i)
  | [] => (overflow, rest, i)
  end.

(** The main loop, [for (; i < src.length - 3; i += 4)], followed by
    the loop which keeps the octets left; [rest] is [src] from index [i]
    on. The result is [(dst, overflow)]. *)
Fixpoint main_loop (isLE : bool) (badChar : Z) (dst : buffer)
  (overflow rest : list Z) : buffer * list Z :=
  match rest with
  | b0 :: b1 :: b2 :: b3 :: rest' =>
      main_loop isLE badChar
        (_writeCodepoint dst (codepoint_of isLE b0 b1 b2 b3) badChar)
        overflow rest'
  | _ => (dst, overflow ++ rest)
  end.

(** The body of [write(src)] up to its last statement: the octets
    stored in [dst], [dst.slice(0, offset)], and the session. *)
Definition write_octets (d : t) (src : buffer) : buffer * t :=
  if (length src =? 0)%nat then ([], d)
  else
    let '(overflow, rest, i, dst) :=
      if (0 <? length (overflow d))%nat then
        let '(overflow, rest, i) := drain (overflow d) src 0 in
        if (length overflow =? 4)%nat then
          (* the block copied from the main loop reads [overflow] at
             [i], [i + 1], [i + 2], [i + 3] *)
          let codepoint :=
            codepoint_of (isLE d)
              (num (index overflow i))
              (num (index overflow (i + 1)))
              (num (index overflow (i + 2)))
              (num (index overflow (i + 3))) in
          ([], rest, i, _writeCodepoint [] codepoint (badChar d))
        else (overflow, rest, i, [])
      else (overflow d, src, 0%nat, []) in
    let '(dst, overflow) :=
      main_loop (isLE d) (badChar d) dst overflow rest in
    (dst, mk (isLE d) (badChar d) overflow).

(** [write(src)] returns [dst.slice(0, offset).toString("ucs2")]. *)
Definition write (d : t) (src : buffer) : jsstring * t :=
  let '(dst, d) := write_octets d src in (ucs2_toString dst, d).

(** [end()] empties the overflow and returns [undefined]. *)
Definition end_ (d : t) : jsstring * t :=
  ([], mk (isLE d) (badChar d) []).

End Utf32Decoder.

(* ================================================================== *)
(** ** encodings/utf32.js: the endianness detector of the auto decoder *)

Module Utf32Auto.
Import JS.

(** The locals of [detectEncoding]. *)
Record locals := mkL {
  b : list Z;
  charsProcessed : Z;
  invalidLE : Z;
  invalidBE : Z;
  bmpCharsLE : Z;
  bmpCharsBE : Z
}.

(** How a turn of the inner loop ends: it goes on, it leaves both loops
    ([break outer_loop]) or it returns from the function. *)
Inductive flow :=
| Next (l : locals)
| Break (l : locals)
| Return (encoding : string).

(** The body of the inner loop for the octet [buf[j]]. *)
Definition inner_step (l : locals) (byte : Z) : flow :=
  let b := b l ++ [byte] in
  match b with
  | [b0; b1; b2; b3] =>
      if (charsProcessed l =? 0)
         && ((b0 =? 0xff) && (b1 =? 0xfe) && (b2 =? 0) && (b3 =? 0))
      then Return "utf-32le"
      else if (charsProcessed l =? 0)
         && ((b0 =? 0) && (b1 =? 0) && (b2 =? 0xfe) && (b3 =? 0xff))
      then Return "utf-32be"
      else
        let invalidBE :=
          if negb (b0 =? 0) || (0x10 <? b1)
          then invalidBE l + 1 else invalidBE l in
        let invalidLE :=
          if negb (b3 =? 0) || (0x10 <? b2)
          then invalidLE l + 1 else invalidLE l in
        let bmpCharsBE :=
          if (b0 =? 0) && (b1 =? 0) && (negb (b2 =? 0) || negb (b3 =? 0))
          then bmpCharsBE l + 1 else bmpCharsBE l in
        let bmpCharsLE :=
          if (negb (b0 =? 0) || negb (b1 =? 0)) && (b2 =? 0) && (b3 =? 0)
          then bmpCharsLE l + 1 else bmpCharsLE l in
        let charsProcessed := charsProcessed l + 1 in
        let l := mkL [] charsProcessed invalidLE invalidBE
                     bmpCharsLE bmpCharsBE in
        if 100 <=? charsProcessed then Break l else Next l
  | _ =>
      (* [b.length !== 4] *)
      Next (mkL b (charsProcessed l) (invalidLE l) (invalidBE l)
                (bmpCharsLE l) (bmpCharsBE l))
  end.

(** The inner loop over the octets of one buffer. *)
Fixpoint inner_loop (l : locals) (buf : buffer) : flow :=
  match buf with
  | [] => Next l
  | byte :: buf' =>
      match inner_step l byte with
      | Next l' => inner_loop l' buf'
      | stop => stop
      end
  end.

(** The outer loop over the buffers. *)
Fixpoint outer_loop (l : locals) (bufs : list buffer) : flow :=
  match bufs with
  | [] => Next l
  | buf :: bufs' =>
      match inner_loop l buf with
      | Next l' => outer_loop l' bufs'
      | stop => stop
      end
  end.

(** [defaultEncoding || "utf-32le"]: [None] is [undefined]; the empty
    string is falsy as well. *)
Definition or_default (defaultEncoding : option string) : string :=
  match defaultEncoding with
  | None => "utf-32le"
  | Some s => if String.eqb s EmptyString then "utf-32le" else s
  end.

(** The statements after the loops. *)
Definition decide (l : locals) (defaultEncoding : option string) : string :=
  if bmpCharsLE l - invalidLE l <? bmpCharsBE l - invalidBE l
  then "utf-32be"
  else if bmpCharsBE l - invalidBE l <? bmpCharsLE l - invalidLE l
  then "utf-32le"
  else or_default defaultEncoding.

(** What the function returns for the way the loops ended. *)
Definition after_loops (f : flow) (defaultEncoding : option string)
  : string :=
  match f with
  | Return encoding => encoding
  | Next l | Break l => decide l defaultEncoding
  end.

Definition detectEncoding (bufs : list buffer)
  (defaultEncoding : option string) : string :=
  after_loops (outer_loop (mkL [] 0 0 0 0 0) bufs) defaultEncoding.

End Utf32Auto.

(* ================================================================== *)
(** ** encodings/utf32.js: the UTF-32 auto encoder and decoder *)

Module Utf32AutoEncoder.
Import JS Exn.

Section Host.
(** [codec.iconv.getEncoder(name, options)], taken to give a UTF-32
    encoder session of this file. *)
Variable getEncoder : string -> Utf32Encoder.t.

Record t := mk { encoder : Utf32Encoder.t }.

(** [constructor(options, codec)] *)
Definition new (options_defaultEncoding : option string) : t :=
  mk (getEncoder (Utf32Auto.or_default options_defaultEncoding)).

Definition hasState (a : t) : bool := Utf32Encoder.hasState (encoder a).

Definition byteLength (a : t) (str : jsstring) : Z :=
  Utf32Encoder.byteLength (encoder a) str.

Definition write (a : t) (str : jsstring) : outcome (buffer * t) :=
  r <- Utf32Encoder.write (encoder a) str ;;
  Ok (fst r, mk (snd r)).

Definition end_ (a : t) : outcome (option buffer * t) :=
  r <- Utf32Encoder.end_ (encoder a) ;;
  Ok (fst r, mk (snd r)).
End Host.

End Utf32AutoEncoder.

Module Utf32AutoDecoder.
Import JS.

Record t := mk {
  decoder : option Utf32Decoder.t;
  initialBufs : list buffer;
  initialBufsLen : Z;
  options_defaultEncoding : option string
}.

(** [constructor(options, codec)] *)
Definition new (options_defaultEncoding : option string) : t :=
  mk None [] 0 options_defaultEncoding.

Definition hasState (a : t) : bool :=
  negb (initialBufsLen a =? 0)
  || match decoder a with
     | Some d => Utf32Decoder.hasState d
     | None => false
     end.

(** [for (i ...) resStr += this.decoder.write(this.initialBufs[i]);] *)
Fixpoint replay (d : Utf32Decoder.t) (resStr : jsstring) (bufs : list buffer)
  : jsstring * Utf32Decoder.t :=
  match bufs with
  | [] => (resStr, d)
  | buf :: bufs' =>
      let '(res, d) := Utf32Decoder.write d buf in
      replay d (resStr ++ res) bufs'
  end.

Section Host.
(** [this.iconv.getDecoder(name, options)], taken to give a UTF-32
    decoder session of this file. *)
Variable getDecoder : string -> Utf32Decoder.t.

Definition write (a : t) (buf : buffer) : jsstring * t :=
  match decoder a with
  | None =>
      let initialBufs := initialBufs a ++ [buf] in
      let initialBufsLen := initialBufsLen a + Z.of_nat (length buf) in
      if initialBufsLen <? 32 then
        ([], mk None initialBufs initialBufsLen (options_defaultEncoding a))
      else
        let encoding :=
          Utf32Auto.detectEncoding initialBufs (options_defaultEncoding a) in
        let '(resStr, d) := replay (getDecoder encoding) [] initialBufs in
        (resStr, mk (Some d) [] 0 (options_defaultEncoding a))
  | Some d =>
      let '(res, d) := Utf32Decoder.write d buf in
      (res, mk (Some d) (initialBufs a) (initialBufsLen a)
              (options_defaultEncoding a))
  end.

Definition end_ (a : t) : jsstring * t :=
  match decoder a with
  | None =>
      let encoding :=
        Utf32Auto.detectEncoding (initialBufs a) (options_defaultEncoding a) in
      let '(resStr, d) := replay (getDecoder encoding) [] (initialBufs a) in
      let '(trail, d) := Utf32Decoder.end_ d in
      (resStr ++ trail, mk (Some d) [] 0 (options_defaultEncoding a))
  | Some d =>
      let '(res, d) := Utf32Decoder.end_ d in
      (res, mk (Some d) (initialBufs a) (initialBufsLen a)
              (options_defaultEncoding a))
  end.
End Host.

(** Once the auto decoder has chosen its decoder, it holds no initial
    octets. *)
Definition chosen_ok (a : t) : Prop :=
  decoder a <> None -> initialBufsLen a = 0.

End Utf32AutoDecoder.

(* ================================================================== *)
(** ** The notions the properties are stated with *)

Module Unicode.
Import JS.

Definition is_high (c : Z) : Prop := 0xD800 <= c < 0xDC00.
Definition is_low (c : Z) : Prop := 0xDC00 <= c < 0xE000.
Definition is_surrogate (c : Z) : Prop := 0xD800 <= c < 0xE000.

(** A scalar of the Basic Multilingual Plane: a code unit which is not
    a surrogate. *)
Definition is_bmp_scalar (c : Z) : Prop := is_u16 c /\ ~ is_surrogate c.

(** A scalar of the supplementary planes. *)
Definition is_supplementary (S : Z) : Prop := 0x10000 <= S <= 0x10FFFF.

(** The UTF-16 form of a supplementary scalar. *)
Definition high_of (S : Z) : Z := 0xD800 + (S - 0x10000) / 1024.
Definition low_of (S : Z) : Z := 0xDC00 + (S - 0x10000) mod 1024.
Definition utf16_of (S : Z) : jsstring := [high_of S; low_of S].

Definition highb (c : Z) : bool := (0xD800 <=? c) && (c <? 0xDC00).
Definition lowb (c : Z) : bool := (0xDC00 <=? c) && (c <? 0xE000).

(** Well-formed UTF-16: every high surrogate is followed by a low one
    and every low surrogate follows a high one. *)
Fixpoint well_formed_utf16 (s : jsstring) : bool :=
  match s with
  | [] => true
  | c :: s' =>
      if highb c then
        match s' with
        | d :: s'' => lowb d && well_formed_utf16 s''
        | [] => false
        end
      else if lowb c then false
      else well_formed_utf16 s'
  end.

(** An octet which continues a sequence: [10xxxxxx]. *)
Definition is_continuation (b : Z) : Prop := 0x80 <= b < 0xC0.

End Unicode.

(** Notions for the CESU-8 sessions. *)
Module Cesu8Notions.
Import JS.

(** The octets the encoder gives for one code unit. *)
Definition enc_unit (c : Z) : buffer := Cesu8Encoder.write_step [] c.

(** The whole output of a decoding session fed [buf] in one [write]. *)
Definition decode_all (dcu : jsstring) (buf : buffer) : jsstring :=
  fst (Cesu8Decoder.write (Cesu8Decoder.new dcu) buf)
  ++ fst (Cesu8Decoder.end_
            (snd (Cesu8Decoder.write (Cesu8Decoder.new dcu) buf))).

(** The replacement, once for every element of [cs]. *)
Definition replacements (dcu : jsstring) (cs : list Z) : jsstring :=
  flat_map (fun _ => dcu) cs.

End Cesu8Notions.

(** Notions for the UTF-32 encoder. *)
Module Utf32EncoderNotions.
Import JS Unicode.

(** The octets a pending high surrogate stands for in [dst]. *)
Definition pending (hs : Z) : nat := if truthy hs then 4%nat else 0%nat.

(** The field [highSurrogate] holds 0 or a high surrogate. *)
Definition hs_ok (hs : Z) : Prop := hs = 0 \/ is_high hs.

End Utf32EncoderNotions.

(** The decoding of UTF-32 as the specification words it. *)
Module Utf32Spec.
Import JS Unicode.

(** The code units for the code point [cp] of a complete group. *)
Definition emit (badChar cp : Z) : jsstring :=
  if (cp <? 0) || (0x10FFFF <? cp) then [badChar]
  else if 0x10000 <=? cp then utf16_of cp
  else [cp].

(** The signed 32-bit value of a group of four octets. *)
Definition value_of (isLE : bool) (b0 b1 b2 b3 : Z) : Z :=
  if isLE then ToInt32 (b0 + 256 * b1 + 65536 * b2 + 16777216 * b3)
  else ToInt32 (b3 + 256 * b2 + 65536 * b1 + 16777216 * b0).

(** The complete groups of four octets of a stream, and what is left. *)
Fixpoint groups4 (bytes : buffer) : list (Z * Z * Z * Z) :=
  match bytes with
  | b0 :: b1 :: b2 :: b3 :: rest => (b0, b1, b2, b3) :: groups4 rest
  | _ => []
  end.

Fixpoint leftover (bytes : buffer) : buffer :=
  match bytes with
  | _ :: _ :: _ :: _ :: rest => leftover rest
  | _ => bytes
  end.

Definition group_value (isLE : bool) (g : Z * Z * Z * Z) : Z :=
  let '(b0, b1, b2, b3) := g in value_of isLE b0 b1 b2 b3.

Definition decode_group (isLE : bool) (badChar : Z) (g : Z * Z * Z * Z)
  : jsstring :=
  let '(b0, b1, b2, b3) := g in emit badChar (value_of isLE b0 b1 b2 b3).

(** The result of decoding a whole stream at once. *)
Definition decode (isLE : bool) (badChar : Z) (bytes : buffer) : jsstring :=
  flat_map (decode_group isLE badChar) (groups4 bytes).

End Utf32Spec.

(** The endianness detection as the specification words it. *)
Module DetectSpec.
Import JS Utf32Spec.

Definition group := (Z * Z * Z * Z)%type.

Definition is_bom_le (g : group) : bool :=
  let '(b0, b1, b2, b3) := g in
  (b0 =? 0xFF) && (b1 =? 0xFE) && (b2 =? 0) && (b3 =? 0).
Definition is_bom_be (g : group) : bool :=
  let '(b0, b1, b2, b3) := g in
  (b0 =? 0) && (b1 =? 0) && (b2 =? 0xFE) && (b3 =? 0xFF).

Definition invalid_be (g : group) : bool :=
  let '(b0, b1, b2, b3) := g in negb (b0 =? 0) || (0x10 <? b1).
Definition invalid_le (g : group) : bool :=
  let '(b0, b1, b2, b3) := g in negb (b3 =? 0) || (0x10 <? b2).
Definition bmp_be (g : group) : bool :=
  let '(b0, b1, b2, b3) := g in
  (b0 =? 0) && (b1 =? 0) && negb ((b2 =? 0) && (b3 =? 0)).
Definition bmp_le (g : group) : bool :=
  let '(b0, b1, b2, b3) := g in
  negb ((b0 =? 0) && (b1 =? 0)) && (b2 =? 0) && (b3 =? 0).

Definition b2z (b : bool) : Z := if b then 1 else 0.

(** The number of groups with the property [p]. *)
Fixpoint count (p : group -> bool) (gs : list group) : Z :=
  match gs with
  | [] => 0
  | g :: gs' => b2z (p g) + count p gs'
  end.

Definition scoreLE (gs : list group) : Z := count bmp_le gs - count invalid_le gs.
Definition scoreBE (gs : list group) : Z := count bmp_be gs - count invalid_be gs.

(** The choice by the scores of the groups scanned. *)
Definition by_score (gs : list group) (defaultEncoding : option string)
  : string :=
  if scoreLE gs <? scoreBE gs then "utf-32be"
  else if scoreBE gs <? scoreLE gs then "utf-32le"
  else match defaultEncoding with
       | None => "utf-32le"
       | Some s => if String.eqb s EmptyString then "utf-32le" else s
       end.

(** The detector on the stream [bytes], the concatenation of the
    chunks: the mark of the first group decides, else the scores of the
    first 100 groups. *)
Definition detect (bytes : buffer) (defaultEncoding : option string)
  : string :=
  let gs := firstn 100 (groups4 bytes) in
  match gs with
  | g :: _ =>
      if is_bom_le g then "utf-32le"
      else if is_bom_be g then "utf-32be"
      else by_score gs defaultEncoding
  | [] => by_score gs defaultEncoding
  end.

(** The locals of the detector after a group [g] which is not taken
    for a mark. *)
Definition counted (n iLE iBE bLE bBE : Z) (g : group) : Utf32Auto.locals :=
  Utf32Auto.mkL [] (n + 1)
    (iLE + b2z (invalid_le g)) (iBE + b2z (invalid_be g))
    (bLE + b2z (bmp_le g)) (bBE + b2z (bmp_be g)).

End DetectSpec.

(* ================================================================== *)
(** ** Sessions written several chunks *)

Module Runs.
Import JS Exn Unicode.

(** A CESU-8 decoder written the chunks in turn: the results put
    together and the session afterwards. *)
Fixpoint cesu8_write_all (d : Cesu8Decoder.t) (chunks : list buffer)
  : jsstring * Cesu8Decoder.t :=
  match chunks with
  | [] => ([], d)
  | buf :: chunks' =>
      let '(res, d) := Cesu8Decoder.write d buf in
      let '(res', d) := cesu8_write_all d chunks' in
      (res ++ res', d)
  end.

(** What a CESU-8 decoder is when it has been written octets only since
    it was made: the fields of an open sequence are those of its
    leading octet and of the continuation octets met since. *)
Definition cesu8_reachable (d : Cesu8Decoder.t) : Prop :=
  let acc := Cesu8Decoder.acc d in
  let contBytes := Cesu8Decoder.contBytes d in
  let accBytes := Cesu8Decoder.accBytes d in
  (contBytes = 0 /\ 0 <= acc < 0x10000 /\ 0 <= accBytes <= 3)
  \/ (contBytes = 1 /\ accBytes = 1 /\ 0 <= acc < 0x20)
  \/ (contBytes = 1 /\ accBytes = 2 /\ 0 <= acc < 0x400)
  \/ (contBytes = 2 /\ accBytes = 1 /\ 0 <= acc < 0x10).

(** The octets of a result of [end()] of the UTF-32 encoder. *)
Definition end_bytes (r : option buffer) : buffer :=
  match r with Some b => b | None => [] end.

(** The code units a pending high surrogate stands for. *)
Definition pending_units (hs : Z) : jsstring :=
  if truthy hs then [hs] else [].

(** A UTF-32 auto decoder written the chunks in turn. *)
Fixpoint auto_write_all (getDecoder : string -> Utf32Decoder.t)
  (a : Utf32AutoDecoder.t) (chunks : list buffer)
  : jsstring * Utf32AutoDecoder.t :=
  match chunks with
  | [] => ([], a)
  | buf :: chunks' =>
      let '(res, a) := Utf32AutoDecoder.write getDecoder a buf in
      let '(res', a) := auto_write_all getDecoder a chunks' in
      (res ++ res', a)
  end.

(** The number of octets of the chunks together. *)
Definition total_length (chunks : list buffer) : Z :=
  Z.of_nat (length (concat chunks)).

(** The group of four octets [writeUInt32LE] or [writeUInt32BE] stores
    for [value]. *)
Definition quad_of (isLE : bool) (value : Z) : Z * Z * Z * Z :=
  let b0 := value mod 256 in
  let b1 := (value / 256) mod 256 in
  let b2 := (value / 65536) mod 256 in
  let b3 := (value / 16777216) mod 256 in
  if isLE then (b0, b1, b2, b3) else (b3, b2, b1, b0).

(** A code unit of the Basic Multilingual Plane other than U+0000. *)
Definition is_text_unit (c : Z) : Prop :=
  0 < c < 0x10000 /\ ~ is_surrogate c.

End Runs.

(* ================================================================== *)
(** ** Tactics *)

(** Case analysis on the comparisons of the goal. *)
Ltac cmp :=
  repeat match goal with
    | |- context [?a <? ?b] => destruct (Z.ltb_spec a b); try lia
    | |- context [?a <=? ?b] => destruct (Z.leb_spec a b); try lia
    | |- context [?a =? ?b] => destruct (Z.eqb_spec a b); try lia
    end.

(** The end of a case of a turn of the UTF-32 encoder. *)
Ltac step_done :=
  split; [reflexivity |];
  split; [unfold Utf32EncoderNotions.hs_ok; auto |];
  split; [lia |];
  split; [lia |];
  intros bl; f_equal; lia.

(* ================================================================== *)
(** * Properties *)

(** ** Facts on the 32-bit operators *)

Module JSFacts.
Import JS.

Lemma ToInt32_small z :
  -2147483648 <= z < 2147483648 -> ToInt32 z = z.
Proof.
  intros H. unfold ToInt32.
  rewrite Z.mod_small by lia. lia.
Qed.

Lemma ToInt32_range z : -2147483648 <= ToInt32 z < 2147483648.
Proof.
  unfold ToInt32.
  pose proof (Z.mod_pos_bound (z + 2147483648) 4294967296 eq_refl). lia.
Qed.

Lemma ToUint32_small z : 0 <= z < 4294967296 -> ToUint32 z = z.
Proof. intros H. unfold ToUint32. now rewrite Z.mod_small. Qed.

Lemma ToUint8_small z : 0 <= z < 256 -> ToUint8 z = z.
Proof. intros H. unfold ToUint8. now rewrite Z.mod_small. Qed.

(** [a & (2^k - 1)] keeps the [k] low bits. *)
Lemma band_ones a k :
  -2147483648 <= a < 2147483648 -> 0 <= k <= 31 ->
  band a (Z.ones k) = a mod 2 ^ k.
Proof.
  intros Ha Hk. unfold band.
  rewrite (ToInt32_small a) by exact Ha.
  rewrite ToInt32_small.
  - apply Z.land_ones; lia.
  - rewrite Z.ones_equiv.
    assert (0 < 2 ^ k <= 2 ^ 31) by
      (split; [apply Z.pow_pos_nonneg; lia | apply Z.pow_le_mono_r; lia]).
    change (2 ^ 31) with 2147483648 in *. lia.
Qed.

Lemma shr_div a n :
  0 <= a < 4294967296 -> 0 <= n < 32 -> shr a n = a / 2 ^ n.
Proof.
  intros Ha Hn. unfold shr.
  rewrite ToUint32_small by exact Ha.
  rewrite Z.mod_small by lia. apply Z.shiftr_div_pow2; lia.
Qed.

Lemma sar_div a n :
  -2147483648 <= a < 2147483648 -> 0 <= n < 32 -> sar a n = a / 2 ^ n.
Proof.
  intros Ha Hn. unfold sar.
  rewrite ToInt32_small by exact Ha.
  rewrite Z.mod_small by lia. apply Z.shiftr_div_pow2; lia.
Qed.

Lemma shl_mul a n :
  0 <= n < 32 -> -2147483648 <= a < 2147483648 ->
  shl a n = ToInt32 (a * 2 ^ n).
Proof.
  intros Hn Ha. unfold shl.
  rewrite (ToInt32_small a) by exact Ha.
  rewrite Z.mod_small by lia. now rewrite Z.shiftl_mul_pow2 by lia.
Qed.

(** Bits which do not overlap add up. *)
Lemma lor_disjoint_add x y n :
  0 <= n -> 0 <= y < 2 ^ n -> Z.lor (x * 2 ^ n) y = x * 2 ^ n + y.
Proof.
  intros Hn Hy.
  assert (Hland : Z.land (x * 2 ^ n) y = 0).
  { apply Z.bits_inj'. intros k Hk.
    rewrite Z.land_spec, Z.bits_0.
    destruct (Z.lt_ge_cases k n) as [Hlt | Hge].
    - rewrite Z.mul_pow2_bits_low by lia. reflexivity.
    - destruct (Z.eq_dec y 0) as [-> | Hy0].
      + rewrite Z.bits_0. apply andb_false_r.
      + rewrite (Z.bits_above_log2 y k).
        * apply andb_false_r.
        * lia.
        * apply Z.log2_lt_pow2; try lia.
          apply Z.lt_le_trans with (2 ^ n); [lia |].
          apply Z.pow_le_mono_r; lia. }
  rewrite <- Z.lxor_lor by exact Hland.
  symmetry. apply Z.add_nocarry_lxor. exact Hland.
Qed.

Lemma bor_disjoint_add x y n :
  0 <= n -> 0 <= y < 2 ^ n ->
  -2147483648 <= x * 2 ^ n < 2147483648 ->
  -2147483648 <= y < 2147483648 ->
  bor (x * 2 ^ n) y = x * 2 ^ n + y.
Proof.
  intros Hn Hy Hx Hy'. unfold bor.
  rewrite !ToInt32_small by assumption.
  apply lor_disjoint_add; assumption.
Qed.

Lemma bor_comm a b : bor a b = bor b a.
Proof. unfold bor. apply Z.lor_comm. Qed.

(** Induction on a list two elements at a time. *)
Lemma list_pair_ind {A} (P : list A -> Prop) :
  P [] -> (forall a, P [a]) ->
  (forall a c l, P l -> P (a :: c :: l)) ->
  forall l, P l.
Proof.
  intros H0 H1 H2 l.
  enough (P l /\ forall a, P (a :: l)) by tauto.
  induction l as [| x l [IHl IHxl]]; split; auto.
Qed.

(** An octet pair read back by [toString("ucs2")]. *)
Lemma ucs2_toString_app (dst rest : buffer) :
  Nat.even (length dst) = true ->
  ucs2_toString (dst ++ rest) = ucs2_toString dst ++ ucs2_toString rest.
Proof.
  induction dst as [| a | a c dst IH] using list_pair_ind; intros He.
  - reflexivity.
  - discriminate.
  - simpl. f_equal. apply IH. exact He.
Qed.

End JSFacts.

(* ================================================================== *)
(** ** CESU-8 *)

Module Cesu8Facts.
Import JS JSFacts Unicode.
Module E := Cesu8Encoder.
Module D := Cesu8Decoder.

(** A property checked on the 256 octets holds of every octet. *)
Lemma byte_cases (f : Z -> bool) :
  forallb f (map Z.of_nat (seq 0 256)) = true ->
  forall b, is_byte b -> f b = true.
Proof.
  intros Hall b [Hlo Hhi].
  rewrite forallb_forall in Hall. apply Hall.
  apply in_map_iff. exists (Z.to_nat b). split; [lia |].
  apply in_seq. lia.
Qed.

(** The test [(curByte & 0xc0) !== 0x80] tells the continuation octets
    from the others. *)
Lemma continuation_test b :
  is_byte b -> (band b 0xc0 =? 0x80) = (0x80 <=? b) && (b <? 0xc0).
Proof.
  intros Hb.
  apply (byte_cases
           (fun b => Bool.eqb (band b 0xc0 =? 0x80)
                              ((0x80 <=? b) && (b <? 0xc0)))) in Hb.
  - now apply Bool.eqb_prop.
  - vm_compute. reflexivity.
Qed.

Lemma band_1f b : is_byte b -> band b 0x1f = b mod 32.
Proof. intros [? ?]. apply (band_ones b 5); lia. Qed.

Lemma band_0f b : is_byte b -> band b 0x0f = b mod 16.
Proof. intros [? ?]. apply (band_ones b 4); lia. Qed.

Lemma band_3f b : 0 <= b < 2147483648 -> band b 0x3f = b mod 64.
Proof. intros [? ?]. apply (band_ones b 6); lia. Qed.

(** Six more bits pushed into the accumulator. *)
Lemma acc_push a b :
  0 <= a < 1048576 -> is_byte b ->
  bor (shl a 6) (band b 0x3f) = a * 64 + b mod 64.
Proof.
  intros Ha Hb.
  rewrite band_3f by (unfold is_byte in Hb; lia).
  rewrite shl_mul by lia.
  rewrite ToInt32_small by lia.
  pose proof (Z.mod_pos_bound b 64 eq_refl).
  apply (bor_disjoint_add a (b mod 64) 6); lia.
Qed.

(** *** The decoder, one octet at a time *)

Lemma step_ascii dcu a ab res b :
  0 <= b < 0x80 ->
  D.write_step dcu (D.mkL a 0 ab res) b = D.mkL a 0 ab (res ++ [b]).
Proof.
  intros Hb. unfold D.write_step.
  rewrite continuation_test by (unfold is_byte; lia).
  cmp; simpl. unfold fromCharCode, ToUint16.
  now rewrite Z.mod_small by lia.
Qed.

Lemma step_lead2 dcu a ab res b :
  0xc0 <= b < 0xe0 ->
  D.write_step dcu (D.mkL a 0 ab res) b = D.mkL (b mod 32) 1 1 res.
Proof.
  intros Hb. unfold D.write_step.
  rewrite continuation_test by (unfold is_byte; lia).
  cmp; simpl. now rewrite band_1f by (unfold is_byte; lia).
Qed.

Lemma step_lead3 dcu a ab res b :
  0xe0 <= b < 0xf0 ->
  D.write_step dcu (D.mkL a 0 ab res) b = D.mkL (b mod 16) 2 1 res.
Proof.
  intros Hb. unfold D.write_step.
  rewrite continuation_test by (unfold is_byte; lia).
  cmp; simpl. now rewrite band_0f by (unfold is_byte; lia).
Qed.

(** A leading octet met while a sequence is open gives up the open
    sequence for one replacement first. *)
Lemma step_lead2_any dcu a cb ab res b :
  0xc0 <= b < 0xe0 ->
  D.write_step dcu (D.mkL a cb ab res) b
  = D.mkL (b mod 32) 1 1 (res ++ if 0 <? cb then dcu else []).
Proof.
  intros Hb. unfold D.write_step.
  rewrite continuation_test by (unfold is_byte; lia).
  rewrite band_1f by (unfold is_byte; lia).
  destruct (0 <? cb); cmp; cbn; rewrite ?app_nil_r; reflexivity.
Qed.

Lemma step_lead3_any dcu a cb ab res b :
  0xe0 <= b < 0xf0 ->
  D.write_step dcu (D.mkL a cb ab res) b
  = D.mkL (b mod 16) 2 1 (res ++ if 0 <? cb then dcu else []).
Proof.
  intros Hb. unfold D.write_step.
  rewrite continuation_test by (unfold is_byte; lia).
  rewrite band_0f by (unfold is_byte; lia).
  destruct (0 <? cb); cmp; cbn; rewrite ?app_nil_r; reflexivity.
Qed.

Lemma step_lead4 dcu a ab res b :
  0xf0 <= b <= 0xff ->
  D.write_step dcu (D.mkL a 0 ab res) b = D.mkL a 0 ab (res ++ dcu).
Proof.
  intros Hb. unfold D.write_step.
  rewrite continuation_test by (unfold is_byte; lia).
  cmp; reflexivity.
Qed.

Lemma step_stray dcu a ab res b :
  is_continuation b ->
  D.write_step dcu (D.mkL a 0 ab res) b = D.mkL a 0 ab (res ++ dcu).
Proof.
  intros Hb. unfold is_continuation in Hb. unfold D.write_step.
  rewrite continuation_test by (unfold is_byte; lia).
  cmp; reflexivity.
Qed.

(** A continuation octet which is not the last one of its sequence. *)
Lemma step_middle dcu a res b :
  0 <= a < 16 -> is_continuation b ->
  D.write_step dcu (D.mkL a 2 1 res) b
  = D.mkL (a * 64 + b mod 64) 1 2 res.
Proof.
  intros Ha Hb. unfold is_continuation in Hb. unfold D.write_step.
  rewrite continuation_test by (unfold is_byte; lia).
  rewrite acc_push by (unfold is_byte; lia).
  cmp; reflexivity.
Qed.

(** The last octet of a sequence of two. *)
Lemma step_last2 dcu a res b :
  0 <= a < 32 -> is_continuation b ->
  D.write_step dcu (D.mkL a 1 1 res) b
  = D.mkL (a * 64 + b mod 64) 0 2
      (res ++ if (0 <? a * 64 + b mod 64) && (a * 64 + b mod 64 <? 0x80)
              then dcu else [a * 64 + b mod 64]).
Proof.
  intros Ha Hb. unfold is_continuation in Hb. unfold D.write_step.
  rewrite continuation_test by (unfold is_byte; lia).
  rewrite acc_push by (unfold is_byte; lia).
  pose proof (Z.mod_pos_bound b 64 eq_refl).
  unfold fromCharCode, ToUint16.
  rewrite (Z.mod_small (a * 64 + b mod 64) 65536) by lia.
  cmp; simpl; reflexivity.
Qed.

(** The last octet of a sequence of three. *)
Lemma step_last3 dcu a res b :
  0 <= a < 1024 -> is_continuation b ->
  D.write_step dcu (D.mkL a 1 2 res) b
  = D.mkL (a * 64 + b mod 64) 0 3
      (res ++ if a * 64 + b mod 64 <? 0x800
              then dcu else [a * 64 + b mod 64]).
Proof.
  intros Ha Hb. unfold is_continuation in Hb. unfold D.write_step.
  rewrite continuation_test by (unfold is_byte; lia).
  rewrite acc_push by (unfold is_byte; lia).
  pose proof (Z.mod_pos_bound b 64 eq_refl).
  unfold fromCharCode, ToUint16.
  rewrite (Z.mod_small (a * 64 + b mod 64) 65536) by lia.
  cmp; simpl; reflexivity.
Qed.

End Cesu8Facts.

Module Cesu8Roundtrip.
Import JS JSFacts Unicode Cesu8Notions Cesu8Facts.
Module E := Cesu8Encoder.
Module D := Cesu8Decoder.

Lemma write_step_app buf c : E.write_step buf c = buf ++ enc_unit c.
Proof.
  unfold enc_unit, E.write_step.
  destruct (c <? 0x80); [reflexivity |].
  destruct (c <? 0x800); reflexivity.
Qed.

Lemma fold_write_step s : forall buf,
  fold_left E.write_step s buf = buf ++ flat_map enc_unit s.
Proof.
  induction s as [| c s IH]; intros buf; simpl.
  - now rewrite app_nil_r.
  - rewrite IH, write_step_app, <- app_assoc. reflexivity.
Qed.

Lemma write_flat_map s : E.write s = flat_map enc_unit s.
Proof. unfold E.write. now rewrite fold_write_step. Qed.

Lemma enc_unit_1 c : 0 <= c < 0x80 -> enc_unit c = [c].
Proof.
  intros Hc. unfold enc_unit, E.write_step. cmp.
  now rewrite ToUint8_small by lia.
Qed.

Lemma enc_unit_2 c :
  0x80 <= c < 0x800 -> enc_unit c = [192 + c / 64; 128 + c mod 64].
Proof.
  intros Hc. unfold enc_unit, E.write_step. cmp.
  rewrite shr_div, band_3f by lia.
  change (2 ^ 6) with 64.
  rewrite !ToUint8_small by (Z.to_euclidean_division_equations; lia).
  reflexivity.
Qed.

Lemma enc_unit_3 c :
  0x800 <= c < 0x10000 ->
  enc_unit c = [224 + c / 4096; 128 + (c / 64) mod 64; 128 + c mod 64].
Proof.
  intros Hc. unfold enc_unit, E.write_step. cmp.
  rewrite !shr_div by lia.
  change (2 ^ 6) with 64. change (2 ^ 12) with 4096.
  rewrite !band_3f by (Z.to_euclidean_division_equations; lia).
  rewrite !ToUint8_small by (Z.to_euclidean_division_equations; lia).
  reflexivity.
Qed.

(** The decoder, idle, fed the octets of one code unit gives the code
    unit back and is idle again. *)
Lemma decode_unit dcu c l :
  is_u16 c -> D.l_contBytes l = 0 ->
  D.l_contBytes (fold_left (D.write_step dcu) (enc_unit c) l) = 0
  /\ D.l_res (fold_left (D.write_step dcu) (enc_unit c) l)
     = D.l_res l ++ [c].
Proof.
  intros Hc Hidle. destruct l as [a cb ab res]. simpl in Hidle. subst cb.
  unfold is_u16 in Hc.
  destruct (Z.lt_ge_cases c 0x80) as [H1 | H1];
    [| destruct (Z.lt_ge_cases c 0x800) as [H2 | H2]].
  - rewrite enc_unit_1 by lia. cbn [fold_left].
    rewrite step_ascii by lia. cbn. auto.
  - rewrite enc_unit_2 by lia. cbn [fold_left].
    rewrite step_lead2 by (Z.to_euclidean_division_equations; lia).
    rewrite step_last2;
      [| Z.to_euclidean_division_equations; lia
       | unfold is_continuation; Z.to_euclidean_division_equations; lia].
    cbn [D.l_contBytes D.l_res].
    assert (Hacc : (192 + c / 64) mod 32 * 64 + (128 + c mod 64) mod 64 = c)
      by (Z.to_euclidean_division_equations; lia).
    rewrite Hacc. split; [reflexivity |]. cmp; reflexivity.
  - rewrite enc_unit_3 by lia. cbn [fold_left].
    rewrite step_lead3 by (Z.to_euclidean_division_equations; lia).
    rewrite step_middle;
      [| Z.to_euclidean_division_equations; lia
       | unfold is_continuation; Z.to_euclidean_division_equations; lia].
    rewrite step_last3;
      [| Z.to_euclidean_division_equations; lia
       | unfold is_continuation; Z.to_euclidean_division_equations; lia].
    cbn [D.l_contBytes D.l_res].
    assert (Hacc : ((224 + c / 4096) mod 16 * 64
                    + (128 + c / 64 mod 64) mod 64) * 64
                   + (128 + c mod 64) mod 64 = c)
      by (Z.to_euclidean_division_equations; lia).
    rewrite Hacc. split; [reflexivity |]. cmp; reflexivity.
Qed.

Lemma decode_units dcu s : forall l,
  Forall is_u16 s -> D.l_contBytes l = 0 ->
  D.l_contBytes (fold_left (D.write_step dcu) (flat_map enc_unit s) l) = 0
  /\ D.l_res (fold_left (D.write_step dcu) (flat_map enc_unit s) l)
     = D.l_res l ++ s.
Proof.
  induction s as [| c s IH]; intros l Hs Hidle; simpl.
  - now rewrite app_nil_r.
  - inversion Hs as [| ? ? Hc Hs']; subst.
    rewrite fold_left_app.
    destruct (decode_unit dcu c l Hc Hidle) as [Hcb Hres].
    destruct (IH _ Hs' Hcb) as [Hcb' Hres'].
    split; [exact Hcb' |].
    rewrite Hres', Hres, <- app_assoc. reflexivity.
Qed.

(** Encoding then decoding any string gives the string back, with
    nothing left for [end()]. *)
Lemma roundtrip_u16 dcu s :
  Forall is_u16 s ->
  fst (D.write (D.new dcu) (E.write s)) = s
  /\ D.hasState (snd (D.write (D.new dcu) (E.write s))) = false
  /\ fst (D.end_ (snd (D.write (D.new dcu) (E.write s)))) = [].
Proof.
  intros Hs. rewrite write_flat_map. unfold D.write, D.new. simpl.
  destruct (decode_units dcu s (D.mkL 0 0 0 []) Hs eq_refl) as [Hcb Hres].
  unfold D.hasState, D.end_. simpl. rewrite Hcb, Hres. auto.
Qed.

Lemma high_of_range S : is_supplementary S -> is_high (high_of S).
Proof.
  unfold is_supplementary, is_high, high_of. intros HS.
  Z.to_euclidean_division_equations; lia.
Qed.

Lemma low_of_range S : is_low (low_of S).
Proof.
  unfold is_low, low_of. Z.to_euclidean_division_equations; lia.
Qed.

(** A surrogate is encoded as [ED] and two continuation octets. *)
Lemma enc_unit_surrogate c :
  is_surrogate c ->
  exists c1 c2,
    is_continuation c1 /\ is_continuation c2 /\ enc_unit c = [0xED; c1; c2].
Proof.
  unfold is_surrogate. intros Hc.
  exists (128 + (c / 64) mod 64), (128 + c mod 64).
  rewrite enc_unit_3 by lia. unfold is_continuation.
  repeat split; try (Z.to_euclidean_division_equations; lia).
  do 2 f_equal. Z.to_euclidean_division_equations; lia.
Qed.

End Cesu8Roundtrip.

Module Cesu8Claims.
Import JS JSFacts Unicode Cesu8Notions Cesu8Facts Cesu8Roundtrip.
Module E := Cesu8Encoder.
Module D := Cesu8Decoder.

(** C5. CESU-8 encoding followed by CESU-8 decoding gives back every
    string of BMP scalars; for a supplementary scalar [S], held by a
    string as its surrogate pair, the encoder gives exactly two
    sequences of three octets (a leading [ED] and two continuation
    octets each) and the decoder gives the surrogate pair back. *)
Theorem cesu8_encode_decode (dcu s : jsstring) (S : Z) :
  Forall is_bmp_scalar s -> is_supplementary S ->
  decode_all dcu (E.write s) = s
  /\ (exists h1 h2 l1 l2,
        is_continuation h1 /\ is_continuation h2 /\
        is_continuation l1 /\ is_continuation l2 /\
        E.write (utf16_of S) = [0xED; h1; h2; 0xED; l1; l2])
  /\ decode_all dcu (E.write (utf16_of S)) = utf16_of S.
Proof.
  intros Hs HS.
  assert (Hu : Forall is_u16 s).
  { eapply Forall_impl; [| exact Hs]. intros c [Hc _]. exact Hc. }
  pose proof (high_of_range S HS) as Hh.
  pose proof (low_of_range S) as Hl.
  assert (Hp : Forall is_u16 (utf16_of S)).
  { unfold utf16_of, is_high, is_low, is_u16 in *.
    repeat constructor; lia. }
  unfold decode_all. split; [| split].
  - destruct (roundtrip_u16 dcu s Hu) as (H1 & _ & H3).
    rewrite H1, H3. apply app_nil_r.
  - destruct (enc_unit_surrogate (high_of S)) as (h1 & h2 & ? & ? & Eh).
    { unfold is_surrogate, is_high in *. lia. }
    destruct (enc_unit_surrogate (low_of S)) as (l1 & l2 & ? & ? & El).
    { unfold is_surrogate, is_low in *. lia. }
    exists h1, h2, l1, l2. repeat (split; [assumption |]).
    rewrite write_flat_map. unfold utf16_of. cbn [flat_map].
    rewrite Eh, El. reflexivity.
  - destruct (roundtrip_u16 dcu (utf16_of S) Hp) as (H1 & _ & H3).
    rewrite H1, H3. apply app_nil_r.
Qed.

(** The theorem above at a concrete input. *)
Lemma cesu8_encode_decode_witness :
  Forall is_bmp_scalar [0x41; 0xE9; 0x20AC] /\ is_supplementary 0x1F4A9
  /\ decode_all [0xFFFD] (E.write [0x41; 0xE9; 0x20AC])
     = [0x41; 0xE9; 0x20AC]
  /\ decode_all [0xFFFD] (E.write (utf16_of 0x1F4A9)) = [0xD83D; 0xDCA9].
Proof.
  assert (Hs : Forall is_bmp_scalar [0x41; 0xE9; 0x20AC]).
  { repeat constructor;
      unfold is_bmp_scalar, is_u16, is_surrogate; lia. }
  assert (HS : is_supplementary 0x1F4A9)
    by (unfold is_supplementary; lia).
  destruct (cesu8_encode_decode [0xFFFD] _ _ Hs HS) as (H1 & _ & H3).
  split; [exact Hs |]. split; [exact HS |].
  split; [exact H1 | exact H3].
Defined.

(** C6. In the CESU-8 decoder, when a sequence of several octets is
    completed with the accumulated value [acc]: a sequence of two with
    [0 < acc < 0x80] gives one replacement, the sequence [C0 80]
    ([acc = 0]) gives the code unit 0, a sequence of three with
    [acc < 0x800] gives one replacement, and every other completed
    sequence gives the code unit [acc]. (When the leading octet finds a
    sequence open, the replacement for that one comes first.) *)
Theorem cesu8_completed_sequence (d : D.t) (L C1 C2 : Z) :
  0xC0 <= L < 0xF0 -> is_continuation C1 -> is_continuation C2 ->
  let before := if D.hasState d then D.defaultCharUnicode d else [] in
  (L < 0xE0 ->
     let r := D.write d [L; C1] in
     let acc := D.acc (snd r) in
     acc = (L mod 32) * 64 + C1 mod 64
     /\ D.accBytes (snd r) = 2 /\ D.contBytes (snd r) = 0
     /\ fst r = before ++ if (0 <? acc) && (acc <? 0x80)
                          then D.defaultCharUnicode d else [acc])
  /\ (0xE0 <= L ->
     let r := D.write d [L; C1; C2] in
     let acc := D.acc (snd r) in
     acc = ((L mod 16) * 64 + C1 mod 64) * 64 + C2 mod 64
     /\ D.accBytes (snd r) = 3 /\ D.contBytes (snd r) = 0
     /\ fst r = before ++ if acc <? 0x800
                          then D.defaultCharUnicode d else [acc])
  /\ fst (D.write d [0xC0; 0x80]) = before ++ [0].
Proof.
  intros HL HC1 HC2. destruct d as [a cb ab dcu].
  unfold D.write, D.hasState.
  cbn [D.acc D.contBytes D.accBytes D.defaultCharUnicode].
  cbv zeta. split; [| split].
  - intros H2. cbn [fold_left].
    rewrite step_lead2_any by lia.
    rewrite step_last2 by
      (try assumption; Z.to_euclidean_division_equations; lia).
    cbn. auto.
  - intros H3. cbn [fold_left].
    rewrite step_lead3_any by lia.
    rewrite step_middle by
      (try assumption; Z.to_euclidean_division_equations; lia).
    rewrite step_last3 by
      (try assumption; unfold is_continuation in *;
       Z.to_euclidean_division_equations; lia).
    cbn. auto.
  - cbn [fold_left].
    rewrite step_lead2_any by lia.
    rewrite step_last2 by (unfold is_continuation; cbn; lia).
    reflexivity.
Qed.

(** The theorem above at a concrete input. *)
Lemma cesu8_completed_sequence_witness :
  fst (D.write (D.new [0xFFFD]) [0xC0; 0x81]) = [0xFFFD]
  /\ fst (D.write (D.new [0xFFFD]) [0xC3; 0xA9]) = [0xE9]
  /\ fst (D.write (D.new [0xFFFD]) [0xE0; 0x81; 0x81]) = [0xFFFD]
  /\ fst (D.write (D.new [0xFFFD]) [0xED; 0xA0; 0xBD]) = [0xD83D]
  /\ fst (D.write (D.new [0xFFFD]) [0xC0; 0x80]) = [0].
Proof.
  assert (c80 : is_continuation 0x80) by (unfold is_continuation; lia).
  assert (c81 : is_continuation 0x81) by (unfold is_continuation; lia).
  assert (cA9 : is_continuation 0xA9) by (unfold is_continuation; lia).
  assert (cA0 : is_continuation 0xA0) by (unfold is_continuation; lia).
  assert (cBD : is_continuation 0xBD) by (unfold is_continuation; lia).
  destruct (cesu8_completed_sequence (D.new [0xFFFD]) 0xC0 0x81 0x81
              ltac:(lia) c81 c81) as (H1 & _ & H0).
  destruct (cesu8_completed_sequence (D.new [0xFFFD]) 0xC3 0xA9 0x80
              ltac:(lia) cA9 c80) as (H2 & _ & _).
  destruct (cesu8_completed_sequence (D.new [0xFFFD]) 0xE0 0x81 0x81
              ltac:(lia) c81 c81) as (_ & H3 & _).
  destruct (cesu8_completed_sequence (D.new [0xFFFD]) 0xED 0xA0 0xBD
              ltac:(lia) cA0 cBD) as (_ & H4 & _).
  split; [exact (proj2 (proj2 (proj2 (H1 ltac:(lia))))) |].
  split; [exact (proj2 (proj2 (proj2 (H2 ltac:(lia))))) |].
  split; [exact (proj2 (proj2 (proj2 (H3 ltac:(lia))))) |].
  split; [exact (proj2 (proj2 (proj2 (H4 ltac:(lia))))) |].
  exact H0.
Defined.

Lemma stray_run dcu a ab cs : forall res,
  Forall is_continuation cs ->
  fold_left (D.write_step dcu) cs (D.mkL a 0 ab res)
  = D.mkL a 0 ab (res ++ replacements dcu cs).
Proof.
  induction cs as [| c cs IH]; intros res Hcs; cbn [fold_left].
  - cbn. now rewrite app_nil_r.
  - inversion Hcs as [| ? ? Hc Hcs']; subst.
    rewrite step_stray by exact Hc.
    rewrite IH by exact Hcs'. cbn. now rewrite <- app_assoc.
Qed.

(** C10. In the CESU-8 decoder, idle, every leading octet in
    [0xF0..0xFF] gives exactly one replacement and leaves the decoder
    idle: it takes none of the continuation octets that follow, and
    each continuation octet [0x80..0xBF] met while idle gives exactly
    one replacement. *)
Theorem cesu8_invalid_lead_and_stray (d : D.t) (B : Z) (cs : list Z) :
  D.contBytes d = 0 -> 0xF0 <= B <= 0xFF -> Forall is_continuation cs ->
  D.write d [B] = (D.defaultCharUnicode d, d)
  /\ (forall c, In c cs -> D.write d [c] = (D.defaultCharUnicode d, d))
  /\ D.write d (B :: cs)
     = (D.defaultCharUnicode d ++ replacements (D.defaultCharUnicode d) cs,
        d)
  /\ D.hasState d = false.
Proof.
  intros Hidle HB Hcs. destruct d as [a cb ab dcu].
  cbn [D.contBytes] in Hidle. subst cb.
  unfold D.write. cbn [D.acc D.contBytes D.accBytes D.defaultCharUnicode].
  repeat split.
  - cbn [fold_left]. rewrite step_lead4 by exact HB. reflexivity.
  - intros c Hc. rewrite Forall_forall in Hcs.
    cbn [fold_left]. rewrite step_stray by (apply Hcs; exact Hc).
    reflexivity.
  - cbn [fold_left]. rewrite step_lead4 by exact HB.
    rewrite stray_run by exact Hcs. reflexivity.
Qed.

(** The theorem above at a concrete input. *)
Lemma cesu8_invalid_lead_and_stray_witness :
  D.write (D.new [0xFFFD]) [0xF0; 0x9F; 0x92; 0xA9]
  = ([0xFFFD; 0xFFFD; 0xFFFD; 0xFFFD], D.new [0xFFFD]).
Proof.
  assert (Hcs : Forall is_continuation [0x9F; 0x92; 0xA9])
    by (repeat constructor; unfold is_continuation; lia).
  destruct (cesu8_invalid_lead_and_stray (D.new [0xFFFD]) 0xF0
              [0x9F; 0x92; 0xA9] eq_refl ltac:(lia) Hcs)
    as (_ & _ & H & _).
  exact H.
Defined.

End Cesu8Claims.

(* ================================================================== *)
(** ** The UTF-32 encoder *)

Module Utf32EncoderFacts.
Import JS JSFacts Exn Unicode Utf32EncoderNotions.
Module E := Utf32Encoder.

Lemma bytes32_length isLE v : length (E.bytes32 isLE v) = 4%nat.
Proof. unfold E.bytes32. destruct isLE; reflexivity. Qed.

Lemma write32_ok isLE cap dst v :
  0 <= v <= 0xffffffff -> (length dst + 4 <= cap)%nat ->
  E.write32 isLE cap dst v = Ok (dst ++ E.bytes32 isLE v).
Proof.
  intros Hv Hcap. unfold E.write32.
  destruct (Z.leb_spec 0 v); [| lia].
  destruct (Z.leb_spec v 0xffffffff); [| lia].
  destruct (Nat.leb_spec (length dst + 4) cap); [reflexivity | lia].
Qed.

Lemma write32_full isLE cap dst v :
  (cap < length dst + 4)%nat -> E.write32 isLE cap dst v = Throw RangeError.
Proof.
  intros Hcap. unfold E.write32.
  destruct (Nat.leb_spec (length dst + 4) cap); [lia |].
  now rewrite andb_false_r.
Qed.

Lemma isHighSurrogate_spec c : E.isHighSurrogate c = true <-> is_high c.
Proof. unfold E.isHighSurrogate, is_high. lia. Qed.

Lemma isLowSurrogate_spec c : E.isLowSurrogate c = true <-> is_low c.
Proof. unfold E.isLowSurrogate, is_low. lia. Qed.

Lemma truthy_high hs : is_high hs -> truthy hs = true.
Proof. unfold is_high, truthy. intros H. destruct (Z.eqb_spec hs 0); [lia | reflexivity]. Qed.

(** The code point of a surrogate pair, without the 32-bit operators. *)
Lemma combine_value hs c :
  is_high hs -> is_low c ->
  bor (shl (hs - 0xd800) 10) (c - 0xdc00) + 0x10000
  = (hs - 0xD800) * 1024 + (c - 0xDC00) + 0x10000.
Proof.
  unfold is_high, is_low. intros Hh Hl.
  rewrite shl_mul by lia. change (2 ^ 10) with 1024.
  rewrite ToInt32_small by lia.
  f_equal. apply (bor_disjoint_add (hs - 55296) (c - 56320) 10); lia.
Qed.

(** One turn of [write] on a string of a fresh session never runs out
    of [dst], and [byteLength] counts what it stores. *)
Lemma write_step_counts isLE cap hs dst c :
  is_u16 c -> hs_ok hs ->
  (length dst + pending hs + 4 <= cap)%nat ->
  exists hs1 dst1,
    E.write_step isLE cap (hs, dst) c = Ok (hs1, dst1)
    /\ hs_ok hs1
    /\ (length dst1 + pending hs1 <= length dst + pending hs + 4)%nat
    /\ (length dst <= length dst1)%nat
    /\ forall bl,
         E.byteLength_step (bl, hs) c
         = (bl + Z.of_nat (length dst1) - Z.of_nat (length dst), hs1).
Proof.
  intros Hc Hhs Hcap. unfold is_u16 in Hc.
  unfold E.write_step, E.byteLength_step, E.write_tail.
  destruct Hhs as [-> | Hh].
  - (* nothing pending *)
    cbn [truthy Z.eqb negb]. unfold pending in Hcap. cbn in Hcap.
    destruct (E.isHighSurrogate c) eqn:Ehigh.
    + apply isHighSurrogate_spec in Ehigh.
      exists c, dst. unfold hs_ok, pending.
      rewrite truthy_high by exact Ehigh.
      step_done.
    + rewrite write32_ok by lia. cbn [bind].
      exists 0, (dst ++ E.bytes32 isLE c). unfold hs_ok, pending. cbn.
      rewrite length_app, bytes32_length.
      step_done.
  - (* a high surrogate pending *)
    pose proof (truthy_high hs Hh) as Ht. rewrite Ht.
    unfold pending in Hcap. rewrite Ht in Hcap.
    assert (Hv : 0 <= hs <= 0xffffffff) by (unfold is_high in Hh; lia).
    destruct (E.isHighSurrogate c) eqn:Ehigh; cbn [orb].
    + apply isHighSurrogate_spec in Ehigh.
      rewrite write32_ok by lia. cbn [bind].
      exists c, (dst ++ E.bytes32 isLE hs). unfold hs_ok, pending. rewrite ?Ht.
      rewrite truthy_high by exact Ehigh.
      rewrite length_app, bytes32_length.
      step_done.
    + destruct (E.isLowSurrogate c) eqn:Elow; cbn [negb].
      * apply isLowSurrogate_spec in Elow.
        rewrite combine_value by assumption.
        rewrite write32_ok by (unfold is_high, is_low in *; lia).
        cbn [bind].
        exists 0, (dst ++ E.bytes32 isLE
                          ((hs - 0xD800) * 1024 + (c - 0xDC00) + 0x10000)). unfold hs_ok, pending. rewrite ?Ht. cbn [truthy Z.eqb negb].
        rewrite length_app, bytes32_length.
        step_done.
      * rewrite write32_ok by lia. cbn [bind].
        rewrite write32_ok by (rewrite ?length_app, ?bytes32_length; lia).
        cbn [bind].
        exists 0, ((dst ++ E.bytes32 isLE hs) ++ E.bytes32 isLE c). unfold hs_ok, pending. rewrite ?Ht. cbn [truthy Z.eqb negb].
        rewrite !length_app, !bytes32_length.
        step_done.
Qed.

Lemma write_loop_counts isLE cap s : forall hs dst,
  Forall is_u16 s -> hs_ok hs ->
  (length dst + pending hs + 4 * length s <= cap)%nat ->
  exists hs' dst',
    E.write_loop isLE cap (hs, dst) s = Ok (hs', dst')
    /\ hs_ok hs'
    /\ (length dst <= length dst')%nat
    /\ forall bl,
         fold_left E.byteLength_step s (bl, hs)
         = (bl + Z.of_nat (length dst') - Z.of_nat (length dst), hs').
Proof.
  induction s as [| c s IH]; intros hs dst Hs Hhs Hcap.
  - exists hs, dst. cbn. repeat split; auto. intros bl. f_equal. lia.
  - inversion Hs as [| ? ? Hc Hs']; subst. cbn [length] in Hcap.
    destruct (write_step_counts isLE cap hs dst c Hc Hhs)
      as (hs1 & dst1 & Hstep & Hhs1 & Hlen1 & Hmono1 & Hbl1); [lia |].
    destruct (IH hs1 dst1 Hs' Hhs1) as (hs' & dst' & Hloop & Hhs' & Hmono & Hbl);
      [lia |].
    exists hs', dst'. cbn [E.write_loop fold_left].
    rewrite Hstep. cbn [bind].
    split; [exact Hloop |]. split; [exact Hhs' |]. split; [lia |].
    intros bl. rewrite Hbl1, Hbl. f_equal. lia.
Qed.

(** C8. For the UTF-32LE/BE encoder on a fresh session and every
    string [s], lone and unpaired surrogates included, [write(s)]
    returns, [end()] returns, and [byteLength(s)] is the number of
    octets of the two results together. *)
Theorem utf32_byteLength_exact (isLE : bool) (s : jsstring) :
  Forall is_u16 s ->
  exists out e tail e',
    E.write (E.new isLE) s = Ok (out, e)
    /\ E.end_ e = Ok (tail, e')
    /\ E.byteLength (E.new isLE) s
       = Z.of_nat (length out) + E.out_length tail.
Proof.
  intros Hs.
  destruct (write_loop_counts isLE (2 * length s * 2) s 0 [] Hs)
    as (hs & dst & Hloop & Hhs & _ & Hbl).
  { left. reflexivity. }
  { cbn. lia. }
  unfold E.write, E.new. cbn [E.isLE E.highSurrogate].
  rewrite Hloop. cbn [bind fst snd].
  unfold E.byteLength. rewrite (Hbl 0).
  destruct Hhs as [-> | Hh].
  - exists dst, (E.mk isLE 0), None, (E.mk isLE 0).
    split; [reflexivity |]. split; [reflexivity |].
    cbn. lia.
  - exists dst, (E.mk isLE hs), (Some (E.bytes32 isLE hs)), (E.mk isLE 0).
    split; [reflexivity |]. split.
    + unfold E.end_. cbn [E.isLE E.highSurrogate].
      rewrite (truthy_high hs Hh). cbn [negb].
      rewrite write32_ok by (unfold is_high in Hh; cbn; lia).
      reflexivity.
    + rewrite (truthy_high hs Hh).
      cbn [E.out_length]. rewrite bytes32_length. cbn. lia.
Qed.

(** The theorem above at a concrete input. *)
Lemma utf32_byteLength_exact_witness :
  Forall is_u16 [0x41; 0xD834; 0xDD1E; 0xDC00; 0xD800]
  /\ exists out e tail e',
       E.write (E.new true) [0x41; 0xD834; 0xDD1E; 0xDC00; 0xD800]
       = Ok (out, e)
       /\ E.end_ e = Ok (tail, e')
       /\ E.byteLength (E.new true) [0x41; 0xD834; 0xDD1E; 0xDC00; 0xD800]
          = Z.of_nat (length out) + E.out_length tail.
Proof.
  assert (Hs : Forall is_u16 [0x41; 0xD834; 0xDD1E; 0xDC00; 0xD800])
    by (repeat constructor; unfold is_u16; lia).
  split; [exact Hs |].
  exact (utf32_byteLength_exact true _ Hs).
Defined.

End Utf32EncoderFacts.

Module Utf32EncoderPending.
Import JS JSFacts Exn Unicode Utf32EncoderNotions Utf32EncoderFacts.
Module E := Utf32Encoder.

(** With a high surrogate pending and a code unit which is not a low
    surrogate, a turn stores the pending surrogate and goes on as a
    turn with nothing pending. *)
Lemma step_unpaired isLE cap hs dst c :
  is_high hs -> ~ is_low c ->
  E.write_step isLE cap (hs, dst) c
  = (dst1 <- E.write32 isLE cap dst hs ;;
     E.write_step isLE cap (0, dst1) c).
Proof.
  intros Hh Hl. unfold E.write_step.
  rewrite (truthy_high hs Hh). cbn [truthy Z.eqb negb].
  destruct (E.isLowSurrogate c) eqn:Elow.
  - apply isLowSurrogate_spec in Elow. contradiction.
  - rewrite orb_true_r. reflexivity.
Qed.

(** With a high surrogate pending and a low surrogate, a turn stores
    the code point of the pair and nothing is pending. *)
Lemma step_pair isLE cap hs dst c :
  is_high hs -> is_low c ->
  E.write_step isLE cap (hs, dst) c
  = (dst1 <- E.write32 isLE cap dst
               ((hs - 0xD800) * 1024 + (c - 0xDC00) + 0x10000) ;;
     Ok (0, dst1)).
Proof.
  intros Hh Hl. unfold E.write_step.
  rewrite (truthy_high hs Hh).
  assert (Ehigh : E.isHighSurrogate c = false).
  { unfold E.isHighSurrogate. unfold is_low in Hl. lia. }
  assert (Elow : E.isLowSurrogate c = true)
    by (apply isLowSurrogate_spec; exact Hl).
  rewrite Ehigh, Elow. cbn [orb negb].
  rewrite combine_value by assumption. reflexivity.
Qed.

(** [end()] with a high surrogate pending gives its four octets and
    nothing is pending. *)
Lemma end_pending isLE hs :
  is_high hs ->
  E.end_ (E.mk isLE hs) = Ok (Some (E.bytes32 isLE hs), E.mk isLE 0).
Proof.
  intros Hh. unfold E.end_. cbn [E.isLE E.highSurrogate].
  rewrite (truthy_high hs Hh). cbn [negb].
  rewrite write32_ok by (unfold is_high in Hh; cbn; lia).
  reflexivity.
Qed.

(** A [write] of one code unit which is no surrogate, with a high
    surrogate pending from an earlier [write], raises: [dst] has room
    for one code point and the turn stores two. *)
Lemma pending_then_unit_throws isLE hs c :
  is_high hs -> is_u16 c -> ~ is_surrogate c ->
  E.write (E.mk isLE hs) [c] = Throw RangeError.
Proof.
  intros Hh Hc Hns. unfold E.write. cbn [E.isLE E.highSurrogate length].
  cbn [E.write_loop].
  rewrite step_unpaired
    by (try assumption; unfold is_low, is_surrogate in *; lia).
  rewrite write32_ok by (unfold is_high in Hh; cbn; lia).
  cbn [bind]. unfold E.write_step. cbn [truthy Z.eqb negb].
  unfold E.write_tail.
  assert (Ehigh : E.isHighSurrogate c = false).
  { unfold E.isHighSurrogate. unfold is_surrogate in Hns. lia. }
  rewrite Ehigh.
  rewrite write32_full by (rewrite length_app, bytes32_length; cbn; lia).
  reflexivity.
Qed.

(** C4, the code at the input where it departs from the claim. A high
    surrogate written alone stays pending; the next [write], of the one
    code unit "A", allocates 4 octets for [dst], stores the pending
    surrogate in them and raises a [RangeError] when it stores "A" at
    offset 4. The same two code units in one [write] give the eight
    octets the claim describes. *)
Theorem utf32_pending_surrogate_next_write_throws :
  E.write (E.new true) [0xD83D] = Ok ([], E.mk true 0xD83D)
  /\ E.write (E.mk true 0xD83D) [0x41] = Throw RangeError
  /\ E.write (E.new true) [0xD83D; 0x41]
     = Ok ([0x3D; 0xD8; 0; 0; 0x41; 0; 0; 0], E.mk true 0).
Proof. repeat split; vm_compute; reflexivity. Qed.

End Utf32EncoderPending.

(* ================================================================== *)
(** ** The UTF-32 decoder *)

Module Utf32DecoderFacts.
Import JS JSFacts Unicode Utf32Spec.
Module D := Utf32Decoder.

(** Induction on a list four elements at a time. *)
Lemma list_quad_ind {A} (P : list A -> Prop) :
  P [] -> (forall a, P [a]) -> (forall a b, P [a; b]) ->
  (forall a b c, P [a; b; c]) ->
  (forall a b c d l, P l -> P (a :: b :: c :: d :: l)) ->
  forall l, P l.
Proof.
  intros H0 H1 H2 H3 H4 l.
  enough (P l /\ (forall a, P (a :: l)) /\ (forall a b, P (a :: b :: l))
          /\ (forall a b c, P (a :: b :: c :: l))) by tauto.
  induction l as [| x l (IH0 & IH1 & IH2 & IH3)]; repeat split; auto.
Qed.

Lemma shl_byte b n :
  is_byte b -> 0 <= n <= 16 -> shl b n = b * 2 ^ n.
Proof.
  intros [Hlo Hhi] Hn. rewrite shl_mul by lia.
  apply ToInt32_small.
  assert (0 < 2 ^ n <= 2 ^ 16) by
    (split; [apply Z.pow_pos_nonneg; lia | apply Z.pow_le_mono_r; lia]).
  change (2 ^ 16) with 65536 in *. nia.
Qed.

(** The three low octets of a group. *)
Lemma low24 x0 x1 x2 :
  is_byte x0 -> is_byte x1 -> is_byte x2 ->
  bor (bor x0 (shl x1 8)) (shl x2 16) = x0 + 256 * x1 + 65536 * x2.
Proof.
  intros H0 H1 H2.
  rewrite !shl_byte by (assumption || lia).
  unfold is_byte in *.
  rewrite (bor_comm x0).
  rewrite (bor_disjoint_add x1 x0 8) by (change (2 ^ 8) with 256; lia).
  rewrite bor_comm.
  rewrite (bor_disjoint_add x2 (x1 * 2 ^ 8 + x0) 16)
    by (change (2 ^ 16) with 65536; change (2 ^ 8) with 256; lia).
  change (2 ^ 16) with 65536. change (2 ^ 8) with 256. lia.
Qed.

(** The high octet goes to the sign bit and the bits below it. *)
Lemma with_high x x3 :
  0 <= x < 16777216 -> is_byte x3 ->
  bor x (shl x3 24) = ToInt32 (x + 16777216 * x3).
Proof.
  intros Hx H3. unfold is_byte in H3.
  rewrite shl_mul by lia. change (2 ^ 24) with 16777216.
  rewrite bor_comm. unfold bor.
  rewrite (ToInt32_small x) by lia.
  rewrite (ToInt32_small (ToInt32 _)) by apply ToInt32_range.
  destruct (Z.lt_ge_cases x3 128) as [Hs | Hs].
  - rewrite !ToInt32_small by lia.
    replace (x3 * 16777216) with (x3 * 2 ^ 24) by reflexivity.
    rewrite lor_disjoint_add by (change (2 ^ 24) with 16777216; lia).
    change (2 ^ 24) with 16777216. lia.
  - assert (E1 : ToInt32 (x3 * 16777216) = (x3 - 256) * 2 ^ 24).
    { unfold ToInt32. change (2 ^ 24) with 16777216.
      Z.to_euclidean_division_equations; lia. }
    assert (E2 : ToInt32 (x + 16777216 * x3)
                 = (x3 - 256) * 2 ^ 24 + x).
    { unfold ToInt32. change (2 ^ 24) with 16777216.
      Z.to_euclidean_division_equations; lia. }
    rewrite E1, E2.
    apply lor_disjoint_add; change (2 ^ 24) with 16777216; lia.
Qed.

(** The value the code reads for a group is its signed 32-bit value. *)
Lemma codepoint_of_value isLE b0 b1 b2 b3 :
  is_byte b0 -> is_byte b1 -> is_byte b2 -> is_byte b3 ->
  D.codepoint_of isLE b0 b1 b2 b3 = value_of isLE b0 b1 b2 b3.
Proof.
  intros H0 H1 H2 H3. unfold D.codepoint_of, value_of.
  destruct isLE.
  - rewrite low24 by assumption.
    rewrite with_high by (unfold is_byte in *; lia). f_equal.
  - rewrite low24 by assumption.
    rewrite with_high by (unfold is_byte in *; lia). f_equal.
Qed.

Lemma value_of_range isLE b0 b1 b2 b3 :
  -2147483648 <= value_of isLE b0 b1 b2 b3 < 2147483648.
Proof. unfold value_of. destruct isLE; apply ToInt32_range. Qed.

End Utf32DecoderFacts.

Module Utf32DecoderWrite.
Import JS JSFacts Unicode Utf32Spec Utf32DecoderFacts.
Module D := Utf32Decoder.

Lemma band_ff u : 0 <= u < 2147483648 -> band u 0xff = u mod 256.
Proof. intros H. apply (band_ones u 8); lia. Qed.

Lemma band_3ff u : 0 <= u < 2147483648 -> band u 0x3ff = u mod 1024.
Proof. intros H. apply (band_ones u 10); lia. Qed.

(** The two octets stored for a code unit read back as the unit. *)
Lemma unit_octets u :
  is_u16 u ->
  ucs2_toString [ToUint8 (band u 0xff); ToUint8 (sar u 8)] = [u].
Proof.
  unfold is_u16. intros Hu.
  rewrite band_ff by lia.
  rewrite sar_div by lia. change (2 ^ 8) with 256.
  rewrite !ToUint8_small by (Z.to_euclidean_division_equations; lia).
  cbn [ucs2_toString]. f_equal.
  Z.to_euclidean_division_equations; lia.
Qed.

Lemma high_unit cp :
  is_supplementary cp ->
  bor 0xd800 (sar (cp - 0x10000) 10) = high_of cp.
Proof.
  unfold is_supplementary, high_of. intros Hcp.
  rewrite sar_div by lia. change (2 ^ 10) with 1024.
  apply (bor_disjoint_add 54 ((cp - 65536) / 1024) 10);
    change (2 ^ 10) with 1024;
    Z.to_euclidean_division_equations; lia.
Qed.

Lemma low_unit cp :
  is_supplementary cp ->
  bor 0xdc00 (band (cp - 0x10000) 0x3ff) = low_of cp.
Proof.
  unfold is_supplementary, low_of. intros Hcp.
  rewrite band_3ff by lia.
  apply (bor_disjoint_add 55 ((cp - 65536) mod 1024) 10);
    change (2 ^ 10) with 1024;
    Z.to_euclidean_division_equations; lia.
Qed.

Lemma high_of_u16 cp : is_supplementary cp -> is_high (high_of cp).
Proof.
  unfold is_supplementary, is_high, high_of. intros H.
  Z.to_euclidean_division_equations; lia.
Qed.

Lemma low_of_u16 cp : is_low (low_of cp).
Proof. unfold is_low, low_of. Z.to_euclidean_division_equations; lia. Qed.

(** What [_writeCodepoint] stores, read back as code units, is what the
    specification emits for the code point; the number of octets
    stays even. *)
Lemma writeCodepoint_emit dst cp badChar :
  is_u16 badChar -> Nat.even (length dst) = true ->
  ucs2_toString (D._writeCodepoint dst cp badChar)
  = ucs2_toString dst ++ emit badChar cp
  /\ Nat.even (length (D._writeCodepoint dst cp badChar)) = true
  /\ (length (D._writeCodepoint dst cp badChar) <= length dst + 4)%nat.
Proof.
  intros Hbad Heven. unfold D._writeCodepoint, emit.
  destruct ((cp <? 0) || (0x10ffff <? cp)) eqn:Hout.
  - (* out of range: the replacement *)
    assert (Hsmall : (0x10000 <=? badChar) = false)
      by (unfold is_u16 in Hbad; lia).
    rewrite Hsmall.
    rewrite ucs2_toString_app by exact Heven.
    rewrite unit_octets by exact Hbad.
    rewrite length_app, Nat.even_add, Heven. cbn. repeat split; lia.
  - destruct (0x10000 <=? cp) eqn:Hsupp.
    + assert (Hcp : is_supplementary cp) by (unfold is_supplementary; lia).
      rewrite high_unit, low_unit by exact Hcp.
      pose proof (high_of_u16 cp Hcp) as Hh.
      pose proof (low_of_u16 cp) as Hl.
      rewrite <- app_assoc. cbn [app].
      rewrite ucs2_toString_app by exact Heven.
      change [ToUint8 (band (high_of cp) 255); ToUint8 (sar (high_of cp) 8);
              ToUint8 (band (low_of cp) 255); ToUint8 (sar (low_of cp) 8)]
        with ([ToUint8 (band (high_of cp) 255); ToUint8 (sar (high_of cp) 8)]
              ++ [ToUint8 (band (low_of cp) 255); ToUint8 (sar (low_of cp) 8)]).
      rewrite ucs2_toString_app by reflexivity.
      rewrite !unit_octets by (unfold is_u16, is_high, is_low in *; lia).
      rewrite !length_app, !Nat.even_add, Heven. cbn. repeat split; lia.
    + rewrite ucs2_toString_app by exact Heven.
      rewrite unit_octets by (unfold is_u16; lia).
      rewrite length_app, Nat.even_add, Heven. cbn. repeat split; lia.
Qed.

(** The main loop decodes the complete groups of what is left of [src]
    and keeps the rest. *)
Lemma main_loop_decode isLE badChar rest : forall dst overflow,
  is_u16 badChar -> Forall is_byte rest -> Nat.even (length dst) = true ->
  ucs2_toString (fst (D.main_loop isLE badChar dst overflow rest))
  = ucs2_toString dst ++ decode isLE badChar rest
  /\ snd (D.main_loop isLE badChar dst overflow rest)
     = overflow ++ leftover rest
  /\ (length (fst (D.main_loop isLE badChar dst overflow rest))
      <= length dst + length rest)%nat.
Proof.
  intros dst overflow Hbad. revert dst.
  induction rest as [| a | a b | a b c | b0 b1 b2 b3 rest IH]
    using list_quad_ind; intros dst Hbytes Heven;
    try (cbn; rewrite app_nil_r; repeat split; lia).
  inversion Hbytes as [| ? ? H0 Hb1]; subst.
  inversion Hb1 as [| ? ? H1 Hb2]; subst.
  inversion Hb2 as [| ? ? H2 Hb3]; subst.
  inversion Hb3 as [| ? ? H3 Hrest]; subst.
  cbn [D.main_loop].
  rewrite codepoint_of_value by assumption.
  destruct (writeCodepoint_emit dst (value_of isLE b0 b1 b2 b3)
              badChar Hbad Heven) as (Hemit & Heven' & Hlen).
  destruct (IH _ Hrest Heven') as (Hout & Hov & Hlen').
  rewrite Hout, Hov, Hemit.
  unfold decode. cbn [groups4 flat_map leftover decode_group length].
  rewrite <- app_assoc. repeat split; lia.
Qed.

End Utf32DecoderWrite.

Module Utf32DecoderClaims.
Import JS JSFacts Unicode Utf32Spec Utf32DecoderFacts Utf32DecoderWrite.
Module D := Utf32Decoder.

(** *** The stores of a [write] fit in [dst] *)

Lemma writeCodepoint_length dst cp badChar :
  (length (D._writeCodepoint dst cp badChar) <= length dst + 4)%nat.
Proof.
  unfold D._writeCodepoint.
  destruct (0x10000 <=? _); rewrite !length_app; cbn; lia.
Qed.

Lemma main_loop_length isLE badChar rest : forall dst overflow,
  (length (fst (D.main_loop isLE badChar dst overflow rest))
   <= length dst + length rest)%nat.
Proof.
  induction rest as [| a | a b | a b c | b0 b1 b2 b3 rest IH]
    using list_quad_ind; intros dst overflow; try (cbn; lia).
  cbn [D.main_loop length].
  pose proof (writeCodepoint_length dst (D.codepoint_of isLE b0 b1 b2 b3)
                badChar).
  pose proof (IH (D._writeCodepoint dst (D.codepoint_of isLE b0 b1 b2 b3)
                    badChar) overflow).
  lia.
Qed.

Lemma drain_length rest : forall overflow i,
  (length (snd (fst (D.drain overflow rest i))) <= length rest)%nat.
Proof.
  induction rest as [| b rest IH]; intros overflow i; cbn [D.drain].
  - cbn. lia.
  - destruct (length overflow <? 4)%nat.
    + pose proof (IH (overflow ++ [b]) (S i)). cbn [length]. lia.
    + cbn. lia.
Qed.

(** [dst] is allocated with [src.length + 4] octets and no store of a
    [write] falls outside of it. *)
Lemma write_octets_fit d src :
  (length (fst (D.write_octets d src)) <= length src + 4)%nat.
Proof.
  unfold D.write_octets.
  destruct (length src =? 0)%nat; [cbn; lia |].
  destruct (0 <? length (D.overflow d))%nat.
  - pose proof (drain_length src (D.overflow d) 0) as Hd.
    destruct (D.drain (D.overflow d) src 0) as [[ov rest] i].
    cbn [fst snd] in Hd.
    destruct (length ov =? 4)%nat.
    + match goal with
      | |- context [D.main_loop ?a ?b ?dst ?o ?r] =>
          pose proof (main_loop_length a b r dst o) as Hm;
          pose proof (writeCodepoint_length [] (D.codepoint_of (D.isLE d)
            (num (index ov i)) (num (index ov (i + 1)))
            (num (index ov (i + 2))) (num (index ov (i + 3)))) (D.badChar d));
          destruct (D.main_loop a b dst o r)
      end.
      cbn [fst length] in *. lia.
    + pose proof (main_loop_length (D.isLE d) (D.badChar d) rest [] ov) as Hm.
      destruct (D.main_loop (D.isLE d) (D.badChar d) [] ov rest).
      cbn [fst length] in *. lia.
  - pose proof (main_loop_length (D.isLE d) (D.badChar d) src []
                  (D.overflow d)) as Hm.
    destruct (D.main_loop (D.isLE d) (D.badChar d) [] (D.overflow d) src).
    cbn [fst length] in *. lia.
Qed.

(** *** A write which starts with nothing in the overflow *)

Lemma write_fresh isLE badChar src :
  is_u16 badChar -> Forall is_byte src ->
  D.write (D.mk isLE badChar []) src
  = (decode isLE badChar src, D.mk isLE badChar (leftover src)).
Proof.
  intros Hbad Hsrc. unfold D.write, D.write_octets.
  cbn [D.overflow D.isLE D.badChar length Nat.ltb Nat.leb].
  destruct src as [| b src']; [reflexivity |].
  cbn [length Nat.eqb].
  destruct (main_loop_decode isLE badChar (b :: src') [] [] Hbad Hsrc
              eq_refl) as (Hout & Hov & _).
  destruct (D.main_loop isLE badChar [] [] (b :: src')) as [dst ov].
  cbn [fst snd] in *. rewrite Hout, Hov. reflexivity.
Qed.

(** *** Well-formed output *)

Lemma well_formed_app a b :
  well_formed_utf16 a = true -> well_formed_utf16 b = true ->
  well_formed_utf16 (a ++ b) = true.
Proof.
  intros Ha Hb. revert Ha.
  enough (H : (well_formed_utf16 a = true ->
               well_formed_utf16 (a ++ b) = true)
              /\ forall c, well_formed_utf16 (c :: a) = true ->
                           well_formed_utf16 ((c :: a) ++ b) = true)
    by (apply H).
  induction a as [| x a [IH1 IH2]].
  - split; [intros _; exact Hb |].
    intros c. cbn. destruct (highb c); [discriminate |].
    destruct (lowb c); [discriminate | intros _; exact Hb].
  - split; [apply IH2 |].
    intros c. cbn [well_formed_utf16 app].
    destruct (highb c).
    + intros H. apply andb_true_iff in H as [Hl Hw].
      rewrite Hl. cbn. apply IH1. exact Hw.
    + destruct (lowb c); [discriminate |]. apply IH2.
Qed.

Lemma highb_spec c : highb c = true <-> is_high c.
Proof. unfold highb, is_high. lia. Qed.

Lemma lowb_spec c : lowb c = true <-> is_low c.
Proof. unfold lowb, is_low. lia. Qed.

Lemma well_formed_unit c :
  ~ is_surrogate c -> well_formed_utf16 [c] = true.
Proof.
  unfold is_surrogate. intros Hc. cbn [well_formed_utf16].
  destruct (highb c) eqn:Hh.
  - apply highb_spec in Hh. unfold is_high in Hh. lia.
  - destruct (lowb c) eqn:Hl; [| reflexivity].
    apply lowb_spec in Hl. unfold is_low in Hl. lia.
Qed.

Lemma well_formed_pair h l :
  is_high h -> is_low l -> well_formed_utf16 [h; l] = true.
Proof.
  intros Hh Hl. cbn [well_formed_utf16].
  apply highb_spec in Hh. apply lowb_spec in Hl.
  rewrite Hh, Hl. reflexivity.
Qed.

Lemma emit_well_formed badChar cp :
  ~ is_surrogate badChar -> ~ is_surrogate cp ->
  well_formed_utf16 (emit badChar cp) = true.
Proof.
  intros Hbad Hcp. unfold emit.
  destruct ((cp <? 0) || (0x10FFFF <? cp)) eqn:Hout.
  - apply well_formed_unit. exact Hbad.
  - destruct (0x10000 <=? cp) eqn:Hsupp.
    + assert (Hs : is_supplementary cp) by (unfold is_supplementary; lia).
      unfold utf16_of.
      apply well_formed_pair; [apply high_of_u16; exact Hs | apply low_of_u16].
    + apply well_formed_unit. exact Hcp.
Qed.

Lemma decode_well_formed isLE badChar src :
  ~ is_surrogate badChar ->
  Forall (fun g => ~ is_surrogate (group_value isLE g)) (groups4 src) ->
  well_formed_utf16 (decode isLE badChar src) = true.
Proof.
  intros Hbad. unfold decode.
  induction (groups4 src) as [| g gs IH]; intros Hgs; [reflexivity |].
  inversion Hgs as [| ? ? Hg Hgs']; subst. cbn [flat_map].
  apply well_formed_app; [| apply IH; exact Hgs'].
  destruct g as [[[b0 b1] b2] b3]. cbn [decode_group].
  apply emit_well_formed; assumption.
Qed.

(** *** The claims *)

(** C3, as amended. A [write] of the UTF-32LE/BE decoder which starts
    with nothing in the overflow returns the code units of the complete
    groups of four octets of [src], in order, and keeps the octets left.
    A group whose signed 32-bit value [cp] has [cp < 0] or
    [cp > 0x10FFFF] gives exactly the replacement code unit; a [cp] in
    [0x10000..0x10FFFF] gives its high and low surrogates; any other
    [cp] gives the single code unit [cp], a lone surrogate included.
    The output is well-formed UTF-16 when neither the replacement nor
    the value of a group is a surrogate. *)
Theorem utf32_decoder_complete_groups (isLE : bool) (badChar : Z)
  (src : buffer) :
  is_u16 badChar -> Forall is_byte src ->
  D.write (D.mk isLE badChar []) src
  = (flat_map (decode_group isLE badChar) (groups4 src),
     D.mk isLE badChar (leftover src))
  /\ (forall cp, cp < 0 \/ 0x10FFFF < cp -> emit badChar cp = [badChar])
  /\ (forall cp, 0x10000 <= cp <= 0x10FFFF ->
        emit badChar cp = [high_of cp; low_of cp]
        /\ is_high (high_of cp) /\ is_low (low_of cp))
  /\ (forall cp, 0 <= cp < 0x10000 -> emit badChar cp = [cp])
  /\ (~ is_surrogate badChar ->
      Forall (fun g => ~ is_surrogate (group_value isLE g)) (groups4 src) ->
      well_formed_utf16 (fst (D.write (D.mk isLE badChar []) src)) = true).
Proof.
  intros Hbad Hsrc.
  rewrite (write_fresh isLE badChar src Hbad Hsrc).
  split; [reflexivity |].
  split; [| split; [| split]].
  - intros cp Hcp. unfold emit.
    destruct (Z.ltb_spec cp 0); [reflexivity |].
    destruct (Z.ltb_spec 0x10FFFF cp); [reflexivity | lia].
  - intros cp Hcp. unfold emit.
    destruct (Z.ltb_spec cp 0); [lia |].
    destruct (Z.ltb_spec 0x10FFFF cp); [lia |].
    destruct (Z.leb_spec 0x10000 cp); [| lia].
    split; [reflexivity |].
    split; [apply high_of_u16; exact Hcp | apply low_of_u16].
  - intros cp Hcp. unfold emit.
    destruct (Z.ltb_spec cp 0); [lia |].
    destruct (Z.ltb_spec 0x10FFFF cp); [lia |].
    destruct (Z.leb_spec 0x10000 cp); [lia | reflexivity].
  - intros Hns Hgs. cbn [fst].
    apply decode_well_formed; assumption.
Qed.

(** The theorem above at a concrete input. *)
Lemma utf32_decoder_complete_groups_witness :
  is_u16 0xFFFD
  /\ Forall is_byte [0x41; 0; 0; 0; 0xFF; 0xFF; 0xFF; 0xFF;
                     0xA9; 0xF4; 0x01; 0; 0x07]
  /\ D.write (D.mk true 0xFFFD [])
       [0x41; 0; 0; 0; 0xFF; 0xFF; 0xFF; 0xFF; 0xA9; 0xF4; 0x01; 0; 0x07]
     = ([0x41; 0xFFFD; 0xD83D; 0xDCA9], D.mk true 0xFFFD [0x07]).
Proof.
  assert (Hbad : is_u16 0xFFFD) by (unfold is_u16; lia).
  assert (Hsrc : Forall is_byte [0x41; 0; 0; 0; 0xFF; 0xFF; 0xFF; 0xFF;
                                 0xA9; 0xF4; 0x01; 0; 0x07])
    by (repeat constructor; unfold is_byte; lia).
  split; [exact Hbad |]. split; [exact Hsrc |].
  exact (proj1 (utf32_decoder_complete_groups true 0xFFFD _ Hbad Hsrc)).
Defined.

(** C3, where the claim fails: the group [00 D8 00 00] of a
    little-endian stream has the value 0xD800, which is in range, and
    the decoder returns it as the lone high surrogate 0xD800; the
    output is not well-formed UTF-16. *)
Lemma utf32_decoder_lone_surrogate :
  Forall is_byte [0x00; 0xD8; 0x00; 0x00]
  /\ fst (D.write (D.new true [0xFFFD]) [0x00; 0xD8; 0x00; 0x00])
     = [0xD800]
  /\ well_formed_utf16
       (fst (D.write (D.new true [0xFFFD]) [0x00; 0xD8; 0x00; 0x00]))
     = false.
Proof.
  split; [repeat constructor; unfold is_byte; lia |].
  split; vm_compute; reflexivity.
Qed.

(** With one octet in the overflow, a little-endian [write] of three
    more octets returns the last of them as a code unit, whatever the
    other three octets of the group are. *)
Lemma overflow_one_reads_last_octet badChar o s0 s1 s2 :
  is_byte s2 ->
  D.write (D.mk true badChar [o]) [s0; s1; s2]
  = ([s2], D.mk true badChar []).
Proof.
  intros Hs2. unfold D.write, D.write_octets.
  cbn [D.overflow D.isLE D.badChar length Nat.eqb Nat.ltb Nat.leb
       D.drain app index nth_error num Nat.add D.main_loop].
  assert (Hcp : D.codepoint_of true s2 0 0 0 = s2).
  { unfold D.codepoint_of, is_byte in *.
    change (shl 0 8) with 0. change (shl 0 16) with 0.
    change (shl 0 24) with 0.
    unfold bor. change (ToInt32 0) with 0. rewrite !Z.lor_0_r.
    repeat rewrite (ToInt32_small s2) by lia. reflexivity. }
  rewrite Hcp.
  assert (Hw : D._writeCodepoint [] s2 badChar
               = [ToUint8 (band s2 0xff); ToUint8 (sar s2 8)]).
  { unfold D._writeCodepoint, is_byte in *.
    destruct (Z.ltb_spec s2 0); [lia |].
    destruct (Z.ltb_spec 0x10ffff s2); [lia |]. cbn [orb].
    destruct (Z.leb_spec 0x10000 s2); [lia | reflexivity]. }
  rewrite Hw. rewrite unit_octets by (unfold is_u16, is_byte in *; lia).
  reflexivity.
Qed.

(** C1, the code at an input where it departs from the claim. The
    little-endian stream [41 00 00 00] written at once gives "A". Cut
    after its first octet, the second [write] brings the overflow to
    [41 00 00 00] with [i = 3] and reads the code point at
    [overflow[3..6]], of which only [overflow[3]] exists: it gives
    U+0000. The big-endian stream [00 00 00 41] cut the same way gives
    the replacement. *)
Theorem utf32_decoder_chunked_differs :
  D.write (D.new true [0xFFFD]) [0x41; 0; 0; 0]
  = ([0x41], D.new true [0xFFFD])
  /\ D.write (D.new true [0xFFFD]) [0x41]
     = ([], D.mk true 0xFFFD [0x41])
  /\ D.write (D.mk true 0xFFFD [0x41]) [0; 0; 0]
     = ([0], D.new true [0xFFFD])
  /\ D.write (D.new false [0xFFFD]) [0; 0; 0; 0x41]
     = ([0x41], D.new false [0xFFFD])
  /\ D.write (D.new false [0xFFFD]) [0]
     = ([], D.mk false 0xFFFD [0])
  /\ D.write (D.mk false 0xFFFD [0]) [0; 0; 0x41]
     = ([0xFFFD], D.new false [0xFFFD]).
Proof. repeat split; vm_compute; reflexivity. Qed.

End Utf32DecoderClaims.

(* ================================================================== *)
(** ** The endianness detector *)

Module DetectFacts.
Import JS Utf32Spec DetectSpec.
Module A := Utf32Auto.

(** The inner loop on two buffers in a row. *)
Lemma inner_loop_app buf rest : forall l,
  A.inner_loop l (buf ++ rest)
  = match A.inner_loop l buf with
    | A.Next l' => A.inner_loop l' rest
    | stop => stop
    end.
Proof.
  induction buf as [| byte buf IH]; intros l; cbn [app A.inner_loop].
  - reflexivity.
  - destruct (A.inner_step l byte); auto.
Qed.

(** The two loops group the octets across the buffers: they scan the
    concatenation. *)
Lemma outer_loop_concat bufs : forall l,
  A.outer_loop l bufs = A.inner_loop l (concat bufs).
Proof.
  induction bufs as [| buf bufs IH]; intros l; cbn [concat A.outer_loop].
  - reflexivity.
  - rewrite inner_loop_app. destruct (A.inner_loop l buf); auto.
Qed.

(** Four octets from the start of a group. *)
Lemma group_step n iLE iBE bLE bBE b0 b1 b2 b3 rest :
  A.inner_loop (A.mkL [] n iLE iBE bLE bBE) (b0 :: b1 :: b2 :: b3 :: rest)
  = if (n =? 0) && is_bom_le (b0, b1, b2, b3) then A.Return "utf-32le"
    else if (n =? 0) && is_bom_be (b0, b1, b2, b3) then A.Return "utf-32be"
    else if 100 <=? n + 1
         then A.Break (counted n iLE iBE bLE bBE (b0, b1, b2, b3))
         else A.inner_loop (counted n iLE iBE bLE bBE (b0, b1, b2, b3)) rest.
Proof.
  cbn [A.inner_loop A.inner_step A.b app A.charsProcessed
       A.invalidLE A.invalidBE A.bmpCharsLE A.bmpCharsBE].
  unfold is_bom_le, is_bom_be, counted, invalid_le, invalid_be,
    bmp_le, bmp_be, b2z.
  destruct ((n =? 0) && _); [reflexivity |].
  destruct ((n =? 0) && _); [reflexivity |].
  destruct (b0 =? 0), (b1 =? 0), (b2 =? 0), (b3 =? 0),
    (16 <? b1), (16 <? b2); cbn [negb orb andb];
    rewrite ?Z.add_0_r; destruct (100 <=? n + 1); reflexivity.
Qed.

(** The scan of at most [k] more groups, once the first group is
    past. *)
Lemma scan def bytes : forall k n iLE iBE bLE bBE,
  n = 100 - Z.of_nat k -> (1 <= k)%nat -> 0 < n ->
  A.after_loops (A.inner_loop (A.mkL [] n iLE iBE bLE bBE) bytes) def
  = A.decide
      (A.mkL [] 0
         (iLE + count invalid_le (firstn k (groups4 bytes)))
         (iBE + count invalid_be (firstn k (groups4 bytes)))
         (bLE + count bmp_le (firstn k (groups4 bytes)))
         (bBE + count bmp_be (firstn k (groups4 bytes)))) def.
Proof.
  induction bytes as [| a | a b | a b c | b0 b1 b2 b3 rest IH]
    using Utf32DecoderFacts.list_quad_ind;
    intros k n iLE iBE bLE bBE Hn Hk Hn0;
    try (cbn; rewrite firstn_nil; cbn; rewrite !Z.add_0_r; reflexivity).
  rewrite group_step.
  destruct (Z.eqb_spec n 0) as [| _]; [lia |]. cbn [andb].
  destruct k as [| k]; [lia |].
  cbn [groups4 firstn count].
  destruct (Z.leb_spec 100 (n + 1)) as [Hend | Hmore].
  - (* the hundredth group *)
    assert (k = 0%nat) by lia. subst k. cbn [firstn count].
    unfold counted, A.after_loops, A.decide.
    cbn [A.invalidLE A.invalidBE A.bmpCharsLE A.bmpCharsBE].
    rewrite !Z.add_0_r. reflexivity.
  - unfold counted. rewrite (IH k) by lia.
    unfold A.decide.
    cbn [A.invalidLE A.invalidBE A.bmpCharsLE A.bmpCharsBE].
    rewrite !Z.add_assoc. reflexivity.
Qed.

Lemma decide_by_score gs def :
  A.decide (A.mkL [] 0 (0 + count invalid_le gs) (0 + count invalid_be gs)
              (0 + count bmp_le gs) (0 + count bmp_be gs)) def
  = by_score gs def.
Proof. reflexivity. Qed.

(** C7. The endianness detector returns 'utf-32le' when the very first
    group of four octets is [FF FE 00 00] and 'utf-32be' when it is
    [00 00 FE FF]; otherwise, over at most the first 100 groups of four
    octets, grouped across the chunks, it returns 'utf-32be' when
    [bmpCharsBE - invalidBE] is greater than [bmpCharsLE - invalidLE],
    'utf-32le' when it is smaller, and on a tie the [defaultEncoding]
    of the caller or else 'utf-32le': it is [DetectSpec.detect] on the
    concatenation of the chunks. *)
Theorem detectEncoding_spec (bufs : list buffer)
  (defaultEncoding : option string) :
  A.detectEncoding bufs defaultEncoding
  = DetectSpec.detect (concat bufs) defaultEncoding.
Proof.
  unfold A.detectEncoding, detect. rewrite outer_loop_concat.
  destruct (concat bufs) as [| b0 [| b1 [| b2 [| b3 rest]]]];
    try reflexivity.
  rewrite group_step. cbn [Z.eqb andb groups4 firstn].
  change 100%nat with (S 99).
  cbn [firstn].
  destruct (is_bom_le (b0, b1, b2, b3)); [reflexivity |].
  destruct (is_bom_be (b0, b1, b2, b3)); [reflexivity |].
  cbn [Z.add Z.leb Z.compare Pos.compare Pos.compare_cont].
  unfold counted.
  rewrite (scan defaultEncoding rest 99) by (cbn; lia).
  rewrite <- decide_by_score. cbn [count].
  rewrite !Z.add_assoc. reflexivity.
Qed.

End DetectFacts.

(* ================================================================== *)
(** ** The streaming base64 encoder *)

Module Base64Facts.
Import JS.
Module B := Base64Encoder.

Lemma count_data_nonneg s : 0 <= B.count_data s.
Proof. unfold B.count_data. lia. Qed.

Lemma count_data_cons c s :
  B.count_data (c :: s)
  = (if c =? 61 then 0 else 1) + B.count_data s.
Proof.
  unfold B.count_data. cbn [filter].
  destruct (c =? 61); cbn [negb length]; lia.
Qed.

Lemma only_padding_no_data s :
  B.only_padding s = true -> B.count_data s = 0.
Proof.
  induction s as [| c s IH]; [reflexivity |].
  unfold B.only_padding. cbn [forallb]. intros H.
  apply andb_true_iff in H as [Hc Hs].
  rewrite count_data_cons, Hc. rewrite IH by exact Hs. reflexivity.
Qed.

(** The pattern is found, and not before the last character which is
    not '='. *)
Lemma search_from_bound s : forall p,
  p + B.count_data s <= B.search_from s p.
Proof.
  induction s as [| c s IH]; intros p.
  - cbn. lia.
  - cbn [B.search_from].
    destruct (B.only_padding (c :: s)) eqn:Hpad.
    + rewrite (only_padding_no_data _ Hpad). lia.
    + specialize (IH (p + 1)). rewrite count_data_cons.
      destruct (c =? 61); lia.
Qed.

Lemma search_padding_bound s : B.count_data s <= B.search_padding s.
Proof. unfold B.search_padding. pose proof (search_from_bound s 0). lia. Qed.

(** [search] never returns -1 here. *)
Lemma search_padding_found s : (B.search_padding s =? -1) = false.
Proof.
  pose proof (search_padding_bound s). pose proof (count_data_nonneg s).
  lia.
Qed.

(** [byteLength] without the branches which are never taken. *)
Lemma byteLength_eq e s :
  let cq := Z.to_nat (Z.of_nat (length s) - Z.of_nat (length s) mod 4) in
  B.byteLength e s
  = (B.search_padding (firstn cq s) * 3) / 4
    + (B.search_padding (skipn cq s) * 3) / 4.
Proof.
  unfold B.byteLength, slice_to, slice_from. cbn zeta.
  rewrite !search_padding_found. reflexivity.
Qed.

Section Host.
Variable base64_decode : jsstring -> buffer.
Hypothesis decode_bounded : B.decoder_bounded base64_decode.

Lemma decoded_length_le s :
  Z.of_nat (length (base64_decode s)) <= (B.search_padding s * 3) / 4.
Proof.
  eapply Z.le_trans; [apply decode_bounded |].
  apply Z.div_le_mono; [lia |].
  pose proof (search_padding_bound s). lia.
Qed.

(** C9. For the base64 streaming encoder on a fresh session and
    every string [s], [byteLength(s)] is at least the number of
    octets of [write(s)] and [end()] together, whatever decoder the
    platform has, as long as it gives at most 3 octets for every 4
    characters other than '='. *)
Theorem base64_byteLength_upper_bound (s : jsstring) :
  Z.of_nat (length (fst (B.write base64_decode B.new s)))
  + Z.of_nat (length (fst (B.end_ base64_decode
                             (snd (B.write base64_decode B.new s)))))
  <= B.byteLength B.new s.
Proof.
  rewrite byteLength_eq.
  unfold B.write, B.end_, B.new, slice_to, slice_from.
  cbn [B.prevStr app fst snd].
  pose proof (decoded_length_le
    (firstn (Z.to_nat (Z.of_nat (length s) - Z.of_nat (length s) mod 4)) s)).
  pose proof (decoded_length_le
    (skipn (Z.to_nat (Z.of_nat (length s) - Z.of_nat (length s) mod 4)) s)).
  lia.
Qed.
End Host.

(** The decoder in the manner of Node's gives no more than 6 bits for
    every character other than '='. *)
Lemma node_decode_from_length s : forall acc bits,
  0 <= bits ->
  8 * Z.of_nat (length (B.node_decode_from s acc bits))
  <= bits + 6 * B.count_data s.
Proof.
  induction s as [| c s IH]; intros acc bits Hbits.
  - cbn. lia.
  - cbn [B.node_decode_from]. rewrite count_data_cons.
    pose proof (count_data_nonneg s).
    destruct (c =? 61); [cbn [length]; lia |].
    destruct (B.unbase64 c) as [v |].
    + destruct (Z.leb_spec 8 (bits + 6)).
      * cbn [length].
        specialize (IH ((acc * 64 + v) mod 2 ^ (bits + 6 - 8))
                       (bits + 6 - 8)).
        lia.
      * specialize (IH (acc * 64 + v) (bits + 6)). lia.
    + specialize (IH acc bits). lia.
Qed.

Lemma node_decoder_bounded : B.decoder_bounded B.node_base64_decode.
Proof.
  intros s. unfold B.node_base64_decode.
  pose proof (node_decode_from_length s 0 0).
  apply Z.div_le_lower_bound; lia.
Qed.

(** "QUJDRA==" written at once: four octets, "ABCD". *)
Lemma base64_byteLength_upper_bound_witness :
  B.decoder_bounded B.node_base64_decode
  /\ Z.of_nat (length (fst (B.write B.node_base64_decode B.new
                             [81; 85; 74; 68; 82; 65; 61; 61])))
     + Z.of_nat (length (fst (B.end_ B.node_base64_decode
          (snd (B.write B.node_base64_decode B.new
                  [81; 85; 74; 68; 82; 65; 61; 61])))))
     <= B.byteLength B.new [81; 85; 74; 68; 82; 65; 61; 61].
Proof.
  split; [exact node_decoder_bounded |].
  exact (base64_byteLength_upper_bound B.node_base64_decode
           node_decoder_bounded [81; 85; 74; 68; 82; 65; 61; 61]).
Defined.

End Base64Facts.

(* ================================================================== *)
(** ** [hasState] at the two ends of a session *)

Module StateReport.
Import JS Exn Unicode.

(** *** After construction *)

Lemma cesu8_decoder_new dcu :
  Cesu8Decoder.hasState (Cesu8Decoder.new dcu) = false.
Proof. reflexivity. Qed.

Lemma base64_encoder_new : Base64Encoder.hasState Base64Encoder.new = false.
Proof. reflexivity. Qed.

Lemma utf32_encoder_new isLE :
  Utf32Encoder.hasState (Utf32Encoder.new isLE) = false.
Proof. reflexivity. Qed.

Lemma utf32_decoder_new isLE dcu :
  Utf32Decoder.hasState (Utf32Decoder.new isLE dcu) = false.
Proof. reflexivity. Qed.

(** *** After [end()]: the UTF-32 sessions empty their state *)

Lemma utf32_encoder_end e r e' :
  Utf32Encoder.end_ e = Ok (r, e') -> Utf32Encoder.hasState e' = false.
Proof.
  unfold Utf32Encoder.end_, Utf32Encoder.hasState.
  destruct (truthy (Utf32Encoder.highSurrogate e)) eqn:Ht; cbn [negb].
  - destruct (Utf32Encoder.write32 _ _ _ _); cbn [bind]; [| discriminate].
    intros H. injection H as _ <-. reflexivity.
  - intros H. injection H as _ <-. exact Ht.
Qed.

Lemma utf32_decoder_end d :
  Utf32Decoder.hasState (snd (Utf32Decoder.end_ d)) = false.
Proof. reflexivity. Qed.

(** The auto encoder reports the state of the encoder it wraps. *)
Lemma utf32_auto_encoder_new getEncoder opt :
  (forall name, Utf32Encoder.hasState (getEncoder name) = false) ->
  Utf32AutoEncoder.hasState (Utf32AutoEncoder.new getEncoder opt) = false.
Proof. intros Hfresh. apply Hfresh. Qed.

Lemma utf32_auto_encoder_end a r a' :
  Utf32AutoEncoder.end_ a = Ok (r, a') -> Utf32AutoEncoder.hasState a' = false.
Proof.
  unfold Utf32AutoEncoder.end_, Utf32AutoEncoder.hasState.
  destruct (Utf32Encoder.end_ (Utf32AutoEncoder.encoder a)) as [[r0 e'] |] eqn:He;
    cbn [bind fst snd]; [| discriminate].
  intros H. injection H as _ <-. cbn [Utf32AutoEncoder.encoder].
  eapply utf32_encoder_end. exact He.
Qed.

Lemma utf32_auto_decoder_new opt :
  Utf32AutoDecoder.hasState (Utf32AutoDecoder.new opt) = false.
Proof. reflexivity. Qed.

Lemma auto_decoder_ok_new opt : Utf32AutoDecoder.chosen_ok (Utf32AutoDecoder.new opt).
Proof. intros H. reflexivity. Qed.

Lemma auto_decoder_ok_write getDecoder a buf :
  Utf32AutoDecoder.chosen_ok a ->
  Utf32AutoDecoder.chosen_ok (snd (Utf32AutoDecoder.write getDecoder a buf)).
Proof.
  unfold Utf32AutoDecoder.chosen_ok, Utf32AutoDecoder.write. intros Hok.
  destruct (Utf32AutoDecoder.decoder a) as [d |] eqn:Hd.
  - destruct (Utf32Decoder.write d buf) as [res d']. cbn.
    intros _. apply Hok. discriminate.
  - destruct (_ <? 32).
    + cbn. intros H. contradiction.
    + destruct (Utf32AutoDecoder.replay _ _ _) as [resStr d]. cbn.
      reflexivity.
Qed.

Lemma utf32_auto_decoder_end getDecoder a :
  Utf32AutoDecoder.chosen_ok a ->
  Utf32AutoDecoder.hasState (snd (Utf32AutoDecoder.end_ getDecoder a)) = false.
Proof.
  unfold Utf32AutoDecoder.chosen_ok, Utf32AutoDecoder.end_, Utf32AutoDecoder.hasState.
  intros Hok.
  destruct (Utf32AutoDecoder.decoder a) as [d |] eqn:Hd.
  - cbn. rewrite Hok by discriminate. reflexivity.
  - destruct (Utf32AutoDecoder.replay _ _ _) as [resStr d]. reflexivity.
Qed.

(** *** After [end()]: the sessions of internal.js keep theirs *)

(** [end()] of the CESU-8 decoder and of the base64 encoder return the
    session as it was. *)
Lemma cesu8_decoder_end_keeps d :
  snd (Cesu8Decoder.end_ d) = d.
Proof. reflexivity. Qed.

Lemma base64_encoder_end_keeps dec e :
  snd (Base64Encoder.end_ dec e) = e.
Proof. reflexivity. Qed.

(** C2, the code at the inputs where it departs from the claim. A
    CESU-8 decoder which was written the first two octets [E2 82] of a
    sequence of three reports state; [end()] returns the replacement
    and the decoder still reports state. A base64 encoder which was
    written "QQ" keeps it as [prevStr]; [end()] decodes it, whatever
    the decoder of the platform, and the encoder still reports
    state. *)
Theorem hasState_true_after_end (base64_decode : jsstring -> buffer) :
  let d := snd (Cesu8Decoder.write (Cesu8Decoder.new [0xFFFD]) [0xE2; 0x82]) in
  let e := snd (Base64Encoder.write base64_decode Base64Encoder.new
                  [81; 81]) in
  Cesu8Decoder.hasState d = true
  /\ fst (Cesu8Decoder.end_ d) = [0xFFFD]
  /\ Cesu8Decoder.hasState (snd (Cesu8Decoder.end_ d)) = true
  /\ Base64Encoder.hasState e = true
  /\ Base64Encoder.hasState (snd (Base64Encoder.end_ base64_decode e))
     = true.
Proof. cbv zeta. repeat split; vm_compute; reflexivity. Qed.

End StateReport.

(* ================================================================== *)
(** ** The sessions on concrete inputs *)

Module Scenarios.
Import JS Exn.

(** CESU-8 decoding of [ED A0 BD ED B2 A9] gives the surrogate pair of
    U+1F4A9, at once and cut after two octets. *)
Example cesu8_decode_pile :
  Cesu8Decoder.write (Cesu8Decoder.new [0xFFFD])
    [0xED; 0xA0; 0xBD; 0xED; 0xB2; 0xA9]
  = ([0xD83D; 0xDCA9], Cesu8Decoder.mk 0xDCA9 0 3 [0xFFFD]).
Proof. vm_compute. reflexivity. Qed.

Example cesu8_decode_pile_streamed :
  let r1 := Cesu8Decoder.write (Cesu8Decoder.new [0xFFFD]) [0xED; 0xA0] in
  let r2 := Cesu8Decoder.write (snd r1) [0xBD; 0xED; 0xB2; 0xA9] in
  fst r1 ++ fst r2 ++ fst (Cesu8Decoder.end_ (snd r2)) = [0xD83D; 0xDCA9].
Proof. vm_compute. reflexivity. Qed.

(** CESU-8 encoding of the surrogate pair of U+1F4A9. *)
Example cesu8_encode_pile :
  Cesu8Encoder.write [0xD83D; 0xDCA9] = [0xED; 0xA0; 0xBD; 0xED; 0xB2; 0xA9].
Proof. vm_compute. reflexivity. Qed.

Example cesu8_byteLength_pile :
  Cesu8Encoder.byteLength [0x41; 0xE9; 0xD83D; 0xDCA9] = 9.
Proof. vm_compute. reflexivity. Qed.

(** A CESU-8 sequence cut short at the end of the stream gives one
    replacement. *)
Example cesu8_decode_truncated :
  let r := Cesu8Decoder.write (Cesu8Decoder.new [0xFFFD]) [0x41; 0xE2; 0x82] in
  fst r ++ fst (Cesu8Decoder.end_ (snd r)) = [0x41; 0xFFFD].
Proof. vm_compute. reflexivity. Qed.

(** UTF-32LE encoding of U+1D11E, held as [D834 DD1E]. *)
Example utf32le_encode_clef :
  Utf32Encoder.write (Utf32Encoder.new true) [0xD834; 0xDD1E]
  = Ok ([0x1E; 0xD1; 0x01; 0x00], Utf32Encoder.mk true 0).
Proof. vm_compute. reflexivity. Qed.

Example utf32be_encode_clef :
  Utf32Encoder.write (Utf32Encoder.new false) [0xD834; 0xDD1E]
  = Ok ([0x00; 0x01; 0xD1; 0x1E], Utf32Encoder.mk false 0).
Proof. vm_compute. reflexivity. Qed.

(** A high surrogate at the end of the string waits for [end()]. *)
Example utf32le_encode_trailing_high :
  Utf32Encoder.write (Utf32Encoder.new true) [0x41; 0xD834]
  = Ok ([0x41; 0; 0; 0], Utf32Encoder.mk true 0xD834)
  /\ Utf32Encoder.end_ (Utf32Encoder.mk true 0xD834)
     = Ok (Some [0x34; 0xD8; 0; 0], Utf32Encoder.mk true 0).
Proof. split; vm_compute; reflexivity. Qed.

(** UTF-32LE decoding of "AB" and of U+1D11E; a trailing octet is kept,
    then dropped by [end()]. *)
Example utf32le_decode_AB :
  Utf32Decoder.write (Utf32Decoder.new true [0xFFFD])
    [0x41; 0; 0; 0; 0x42; 0; 0; 0]
  = ([0x41; 0x42], Utf32Decoder.new true [0xFFFD]).
Proof. vm_compute. reflexivity. Qed.

Example utf32le_decode_clef_and_rest :
  Utf32Decoder.write (Utf32Decoder.new true [0xFFFD])
    [0x1E; 0xD1; 0x01; 0x00; 0x41]
  = ([0xD834; 0xDD1E], Utf32Decoder.mk true 0xFFFD [0x41])
  /\ Utf32Decoder.end_ (Utf32Decoder.mk true 0xFFFD [0x41])
     = ([], Utf32Decoder.new true [0xFFFD]).
Proof. split; vm_compute; reflexivity. Qed.

(** A group with the high bit set is negative as a 32-bit value and
    gives the replacement. *)
Example utf32le_decode_negative :
  Utf32Decoder.write (Utf32Decoder.new true [0xFFFD]) [0; 0; 0; 0x80]
  = ([0xFFFD], Utf32Decoder.new true [0xFFFD]).
Proof. vm_compute. reflexivity. Qed.

(** The detector: the marks, the scores and the tie. *)
Example detect_bom_le :
  Utf32Auto.detectEncoding [[0xFF; 0xFE]; [0; 0; 0; 0; 0; 0x41]] None
  = "utf-32le"%string.
Proof. vm_compute. reflexivity. Qed.

Example detect_bom_be :
  Utf32Auto.detectEncoding [[0; 0; 0xFE; 0xFF; 0x41; 0; 0; 0]] None
  = "utf-32be"%string.
Proof. vm_compute. reflexivity. Qed.

Example detect_le_text :
  Utf32Auto.detectEncoding [[0x41; 0; 0]; [0; 0x42; 0; 0; 0]] (Some "utf-32be"%string)
  = "utf-32le"%string.
Proof. vm_compute. reflexivity. Qed.

Example detect_be_text :
  Utf32Auto.detectEncoding [[0; 0; 0; 0x41; 0; 0; 0; 0x42]] None
  = "utf-32be"%string.
Proof. vm_compute. reflexivity. Qed.

Example detect_zeros :
  Utf32Auto.detectEncoding [[0; 0; 0; 0; 0; 0; 0; 0]] None = "utf-32le"%string
  /\ Utf32Auto.detectEncoding [[0; 0; 0; 0; 0; 0; 0; 0]]
       (Some "utf-32be"%string) = "utf-32be"%string.
Proof. split; vm_compute; reflexivity. Qed.

(** The base64 encoder keeps the characters past the last complete
    quad. *)
Example base64_write_partial :
  Base64Encoder.write Base64Encoder.node_base64_decode Base64Encoder.new
    [81; 85; 74; 68; 82; 65]
  = ([65; 66; 67], Base64Encoder.mk [82; 65])
  /\ Base64Encoder.end_ Base64Encoder.node_base64_decode
       (Base64Encoder.mk [82; 65])
     = ([68], Base64Encoder.mk [82; 65])
  /\ Base64Encoder.byteLength Base64Encoder.new [81; 85; 74; 68; 82; 65] = 4.
Proof. repeat split; vm_compute; reflexivity. Qed.

End Scenarios.

(* ================================================================== *)
(** ** More on the CESU-8 sessions *)

Module Cesu8More.
Import JS JSFacts Unicode Cesu8Notions Cesu8Facts Cesu8Roundtrip Runs.
Module E := Cesu8Encoder.
Module D := Cesu8Decoder.

(** *** The encoder *)

Lemma enc_unit_length c :
  (1 <= length (enc_unit c) <= 3)%nat
  /\ E.byteLength_step 0 c = Z.of_nat (length (enc_unit c)).
Proof.
  unfold enc_unit, E.write_step, E.byteLength_step.
  destruct (c <? 0x80); [cbn [app length]; lia |].
  destruct (c <? 0x800); cbn [app length]; lia.
Qed.

Lemma byteLength_step_add n c :
  E.byteLength_step n c = n + E.byteLength_step 0 c.
Proof.
  unfold E.byteLength_step.
  destruct (c <? 0x80); [lia |]. destruct (c <? 0x800); lia.
Qed.

Lemma fold_byteLength_step s : forall n,
  fold_left E.byteLength_step s n
  = n + Z.of_nat (length (flat_map enc_unit s)).
Proof.
  induction s as [| c s IH]; intros n; cbn [fold_left flat_map].
  - cbn. lia.
  - rewrite IH, byteLength_step_add, length_app.
    destruct (enc_unit_length c) as [_ ->]. lia.
Qed.

Lemma flat_map_enc_unit_length s :
  (length s <= length (flat_map enc_unit s) <= 3 * length s)%nat.
Proof.
  induction s as [| c s IH]; cbn [flat_map length]; [lia |].
  rewrite length_app. destruct (enc_unit_length c) as [Hc _]. lia.
Qed.

(** X1. [byteLength(str)] of the CESU-8 encoder is exactly the number
    of octets [write(str)] returns, which is between [str.length] and
    [3 * str.length]: the buffer [write] allocates is never too
    small. *)
Theorem cesu8_byteLength_exact (str : jsstring) :
  E.byteLength str = Z.of_nat (length (E.write str))
  /\ (length str <= length (E.write str) <= 3 * length str)%nat.
Proof.
  rewrite write_flat_map. unfold E.byteLength.
  rewrite fold_byteLength_step.
  split; [lia | apply flat_map_enc_unit_length].
Qed.

(** X2. The CESU-8 encoder keeps nothing between two calls: writing a
    string in two pieces gives the octets of writing it at once, also
    when the cut falls inside a surrogate pair. *)
Theorem cesu8_write_app (s1 s2 : jsstring) :
  E.write (s1 ++ s2) = E.write s1 ++ E.write s2.
Proof. rewrite !write_flat_map. apply flat_map_app. Qed.

(** *** The decoder, chunk after chunk *)

(** A turn of the loop adds to [res] and reads it nowhere. *)
Lemma write_step_res dcu a cb ab res b :
  D.write_step dcu (D.mkL a cb ab res) b
  = let l := D.write_step dcu (D.mkL a cb ab []) b in
    D.mkL (D.l_acc l) (D.l_contBytes l) (D.l_accBytes l) (res ++ D.l_res l).
Proof.
  unfold D.write_step.
  destruct (negb (band b 0xc0 =? 0x80)).
  - destruct (0 <? cb); destruct (b <? 0x80); try destruct (b <? 0xe0);
      try destruct (b <? 0xf0);
      cbn [D.l_acc D.l_contBytes D.l_accBytes D.l_res app];
      rewrite ?app_nil_r, ?app_assoc; reflexivity.
  - destruct (0 <? cb); [| cbn [D.l_acc D.l_contBytes D.l_accBytes D.l_res app];
                             reflexivity].
    destruct (cb - 1 =? 0); [| cbn [D.l_acc D.l_contBytes D.l_accBytes
                                      D.l_res]; now rewrite app_nil_r].
    destruct ((ab + 1 =? 2) && _ && _);
      [cbn [D.l_acc D.l_contBytes D.l_accBytes D.l_res app]; reflexivity |].
    destruct ((ab + 1 =? 3) && _);
      cbn [D.l_acc D.l_contBytes D.l_accBytes D.l_res app]; reflexivity.
Qed.

Lemma fold_write_step_res dcu buf : forall a cb ab res,
  fold_left (D.write_step dcu) buf (D.mkL a cb ab res)
  = let l := fold_left (D.write_step dcu) buf (D.mkL a cb ab []) in
    D.mkL (D.l_acc l) (D.l_contBytes l) (D.l_accBytes l) (res ++ D.l_res l).
Proof.
  induction buf as [| b buf IH]; intros a cb ab res; cbn [fold_left].
  - cbn. now rewrite app_nil_r.
  - rewrite write_step_res. cbv zeta.
    destruct (D.write_step dcu (D.mkL a cb ab []) b) as [a1 cb1 ab1 res1].
    cbn [D.l_acc D.l_contBytes D.l_accBytes D.l_res].
    rewrite IH. rewrite (IH a1 cb1 ab1 res1). cbv zeta.
    cbn [D.l_acc D.l_contBytes D.l_accBytes D.l_res].
    now rewrite app_assoc.
Qed.

(** Two writes in a row are one write of the two buffers. *)
Lemma write_app d buf1 buf2 :
  D.write d (buf1 ++ buf2)
  = (fst (D.write d buf1) ++ fst (D.write (snd (D.write d buf1)) buf2),
     snd (D.write (snd (D.write d buf1)) buf2)).
Proof.
  unfold D.write. rewrite fold_left_app.
  cbn [fst snd D.acc D.contBytes D.accBytes D.defaultCharUnicode].
  destruct (fold_left (D.write_step (D.defaultCharUnicode d)) buf1 _)
    as [a1 cb1 ab1 res1].
  cbn [D.l_acc D.l_contBytes D.l_accBytes D.l_res].
  rewrite fold_write_step_res. reflexivity.
Qed.

Lemma write_all_concat (d : D.t) (chunks : list buffer) :
  cesu8_write_all d chunks = D.write d (concat chunks).
Proof.
  revert d. induction chunks as [| buf chunks IH]; intros d.
  - destruct d. reflexivity.
  - cbn [cesu8_write_all concat]. rewrite write_app.
    destruct (D.write d buf) as [res d1]. cbn [fst snd].
    rewrite IH. destruct (D.write d1 (concat chunks)). reflexivity.
Qed.

(** X3. The CESU-8 decoder does not depend on how the stream is cut:
    written any chunks in turn, from any state, it returns together
    what one [write] of the whole stream returns, and ends in the same
    state. *)
Theorem cesu8_decoder_chunk_invariance (d : D.t) (chunks : list buffer) :
  cesu8_write_all d chunks = D.write d (concat chunks).
Proof. apply write_all_concat. Qed.

(** X4. Encoding a string to CESU-8 and decoding the octets, cut
    anywhere into chunks, gives the string back, lone surrogates
    included, and nothing is left for [end()]. *)
Theorem cesu8_roundtrip_chunked (dcu s : jsstring) (chunks : list buffer) :
  Forall is_u16 s -> concat chunks = E.write s ->
  fst (cesu8_write_all (D.new dcu) chunks) = s
  /\ D.hasState (snd (cesu8_write_all (D.new dcu) chunks)) = false
  /\ fst (D.end_ (snd (cesu8_write_all (D.new dcu) chunks))) = [].
Proof.
  intros Hs Hcut. rewrite write_all_concat, Hcut.
  apply roundtrip_u16. exact Hs.
Qed.

(** The theorem above at a concrete input. *)
Lemma cesu8_roundtrip_chunked_witness :
  Forall is_u16 [0x41; 0xD83D; 0xDCA9]
  /\ fst (cesu8_write_all (D.new [0xFFFD])
            [[0x41; 0xED]; [0xA0]; []; [0xBD; 0xED; 0xB2; 0xA9]])
     = [0x41; 0xD83D; 0xDCA9].
Proof.
  assert (Hs : Forall is_u16 [0x41; 0xD83D; 0xDCA9])
    by (repeat constructor; unfold is_u16; lia).
  split; [exact Hs |].
  exact (proj1 (cesu8_roundtrip_chunked [0xFFFD] [0x41; 0xD83D; 0xDCA9]
                  [[0x41; 0xED]; [0xA0]; []; [0xBD; 0xED; 0xB2; 0xA9]]
                  Hs eq_refl)).
Defined.

(** *** The fields of the decoder *)

Lemma step_ascii_any dcu a cb ab res b :
  0 <= b < 0x80 ->
  D.write_step dcu (D.mkL a cb ab res) b
  = D.mkL a (if 0 <? cb then 0 else cb) ab
      ((res ++ if 0 <? cb then dcu else []) ++ [b]).
Proof.
  intros Hb. unfold D.write_step.
  rewrite continuation_test by (unfold is_byte; lia).
  unfold fromCharCode, ToUint16. rewrite (Z.mod_small b 65536) by lia.
  destruct (Z.ltb_spec 0 cb); cmp; cbn [negb andb];
    rewrite ?app_nil_r; reflexivity.
Qed.

Lemma step_lead4_any dcu a cb ab res b :
  0xf0 <= b <= 0xff ->
  D.write_step dcu (D.mkL a cb ab res) b
  = D.mkL a (if 0 <? cb then 0 else cb) ab
      ((res ++ if 0 <? cb then dcu else []) ++ dcu).
Proof.
  intros Hb. unfold D.write_step.
  rewrite continuation_test by (unfold is_byte; lia).
  destruct (Z.ltb_spec 0 cb); cmp; cbn [negb andb];
    rewrite ?app_nil_r; reflexivity.
Qed.

(** The fields as a session holds them, for the locals of [write]. *)
Lemma step_reachable dcu l b :
  is_byte b ->
  cesu8_reachable (D.mk (D.l_acc l) (D.l_contBytes l) (D.l_accBytes l) dcu) ->
  let l' := D.write_step dcu l b in
  cesu8_reachable
    (D.mk (D.l_acc l') (D.l_contBytes l') (D.l_accBytes l') dcu).
Proof.
  intros Hb. destruct l as [a cb ab res]. unfold cesu8_reachable, is_byte in *.
  cbn [D.acc D.contBytes D.accBytes D.l_acc D.l_contBytes D.l_accBytes].
  cbv zeta. intros Hok.
  pose proof (Z.mod_pos_bound b 64 eq_refl) as H64.
  pose proof (Z.mod_pos_bound b 32 eq_refl) as H32.
  pose proof (Z.mod_pos_bound b 16 eq_refl) as H16.
  destruct (Z.lt_ge_cases b 0x80) as [Ha | Ha].
  { rewrite step_ascii_any by lia.
    cbn [D.l_acc D.l_contBytes D.l_accBytes].
    destruct (Z.ltb_spec 0 cb); lia. }
  destruct (Z.lt_ge_cases b 0xc0) as [Hc | Hc].
  { (* a continuation octet *)
    assert (Hcont : is_continuation b) by (unfold is_continuation; lia).
    destruct Hok as [(-> & Ha0 & Hab) | [(-> & -> & Ha0) | [(-> & -> & Ha0)
                    | (-> & -> & Ha0)]]].
    - rewrite step_stray by exact Hcont.
      cbn [D.l_acc D.l_contBytes D.l_accBytes]. lia.
    - rewrite step_last2 by (try exact Hcont; lia).
      cbn [D.l_acc D.l_contBytes D.l_accBytes]. lia.
    - rewrite step_last3 by (try exact Hcont; lia).
      cbn [D.l_acc D.l_contBytes D.l_accBytes]. lia.
    - rewrite step_middle by (try exact Hcont; lia).
      cbn [D.l_acc D.l_contBytes D.l_accBytes]. lia. }
  destruct (Z.lt_ge_cases b 0xe0) as [He | He].
  { rewrite step_lead2_any by lia.
    cbn [D.l_acc D.l_contBytes D.l_accBytes]. lia. }
  destruct (Z.lt_ge_cases b 0xf0) as [Hf | Hf].
  { rewrite step_lead3_any by lia.
    cbn [D.l_acc D.l_contBytes D.l_accBytes]. lia. }
  rewrite step_lead4_any by lia.
  cbn [D.l_acc D.l_contBytes D.l_accBytes].
  destruct (Z.ltb_spec 0 cb); lia.
Qed.

Lemma fold_reachable dcu buf : forall l,
  Forall is_byte buf ->
  cesu8_reachable (D.mk (D.l_acc l) (D.l_contBytes l) (D.l_accBytes l) dcu) ->
  let l' := fold_left (D.write_step dcu) buf l in
  cesu8_reachable
    (D.mk (D.l_acc l') (D.l_contBytes l') (D.l_accBytes l') dcu).
Proof.
  induction buf as [| b buf IH]; intros l Hbuf Hok; cbn [fold_left].
  - exact Hok.
  - inversion Hbuf as [| ? ? Hb Hbuf']; subst.
    apply IH; [exact Hbuf' |]. apply step_reachable; assumption.
Qed.

(** X5. Whatever octets a CESU-8 decoder is written, in whatever
    chunks, since it was made, it waits for at most 2 continuation
    octets, its accumulator stays below 0x10000 (so that
    [String.fromCharCode(acc)] loses nothing and the 32-bit operators
    never wrap) and, while a sequence is open, it has counted 1 or 2
    octets of it. *)
Theorem cesu8_decoder_fields_bounded (dcu : jsstring)
  (chunks : list buffer) :
  Forall (Forall is_byte) chunks ->
  let d := snd (cesu8_write_all (D.new dcu) chunks) in
  0 <= D.contBytes d <= 2
  /\ 0 <= D.acc d < 0x10000
  /\ 0 <= D.accBytes d <= 3
  /\ (D.hasState d = true -> 1 <= D.accBytes d <= 2).
Proof.
  intros Hchunks. rewrite write_all_concat. cbv zeta.
  assert (Hbuf : Forall is_byte (concat chunks)).
  { induction Hchunks as [| c cs Hc _ IH]; cbn [concat].
    - constructor.
    - apply Forall_app. split; assumption. }
  unfold D.write, D.new.
  cbn [snd D.acc D.contBytes D.accBytes D.defaultCharUnicode].
  pose proof (fold_reachable dcu (concat chunks) (D.mkL 0 0 0 []) Hbuf) as H.
  cbv zeta in H.
  match type of H with
  | ?P -> _ => assert (H0 : P) by (unfold cesu8_reachable; cbn; lia)
  end.
  specialize (H H0). unfold cesu8_reachable in H.
  cbn [D.acc D.contBytes D.accBytes] in H. cbv zeta in H.
  unfold D.hasState. cbn [D.contBytes].
  destruct (fold_left _ _ _) as [a cb ab res].
  cbn [D.l_acc D.l_contBytes D.l_accBytes] in *.
  repeat split; try lia.
Qed.

(** The theorem above at a concrete input. *)
Lemma cesu8_decoder_fields_bounded_witness :
  Forall (Forall is_byte) [[0x41; 0xE2]; [0x82]]
  /\ D.contBytes (snd (cesu8_write_all (D.new [0xFFFD]) [[0x41; 0xE2]; [0x82]]))
     <= 2.
Proof.
  assert (Hc : Forall (Forall is_byte) [[0x41; 0xE2]; [0x82]])
    by (repeat constructor; unfold is_byte; lia).
  split; [exact Hc |].
  exact (proj2 (proj1 (cesu8_decoder_fields_bounded [0xFFFD] _ Hc))).
Defined.

(** *** The size of the output *)

(** The code units returned so far, and one for an open sequence. *)
Lemma step_output_bound dcu l b :
  (length dcu <= 1)%nat ->
  let l' := D.write_step dcu l b in
  (length (D.l_res l') + (if (0 <? D.l_contBytes l')%Z then 1 else 0)
   <= length (D.l_res l) + (if (0 <? D.l_contBytes l)%Z then 1 else 0) + 1)%nat.
Proof.
  intros Hdcu. destruct l as [a cb ab res]. cbv zeta.
  unfold D.write_step, fromCharCode.
  destruct (negb (band b 0xc0 =? 0x80)).
  - destruct (Z.ltb_spec 0 cb); destruct (b <? 0x80);
      try destruct (b <? 0xe0); try destruct (b <? 0xf0);
      cbn [D.l_res D.l_contBytes Z.ltb Z.compare];
      rewrite ?length_app; cbn [length];
      try (destruct (Z.ltb_spec 0 cb)); lia.
  - destruct (Z.ltb_spec 0 cb).
    + destruct (Z.eqb_spec (cb - 1) 0) as [E0 | E0].
      * destruct ((ab + 1 =? 2) && _ && _);
          [| destruct ((ab + 1 =? 3) && _)];
          cbn [D.l_res D.l_contBytes]; rewrite E0;
          cbn [Z.ltb Z.compare]; rewrite length_app; cbn [length]; lia.
      * cbn [D.l_res D.l_contBytes].
        destruct (Z.ltb_spec 0 (cb - 1)); lia.
    + cbn [D.l_res D.l_contBytes]. rewrite length_app.
      destruct (Z.ltb_spec 0 cb); lia.
Qed.

Lemma fold_output_bound dcu buf : forall l,
  (length dcu <= 1)%nat ->
  let l' := fold_left (D.write_step dcu) buf l in
  (length (D.l_res l') + (if (0 <? D.l_contBytes l')%Z then 1 else 0)
   <= length (D.l_res l) + (if (0 <? D.l_contBytes l)%Z then 1 else 0)
      + length buf)%nat.
Proof.
  induction buf as [| b buf IH]; intros l Hdcu; cbn [fold_left length].
  - cbv zeta. lia.
  - pose proof (step_output_bound dcu l b Hdcu) as Hs.
    pose proof (IH (D.write_step dcu l b) Hdcu) as Hf.
    cbv zeta in *. lia.
Qed.

(** X6. With a replacement of one code unit, a CESU-8 decoder never
    returns more code units than it was written octets: [write] and
    [end()] together return at most [buf.length] code units, and one
    more if the session had a sequence open before. *)
Theorem cesu8_decoder_output_bound (d : D.t) (buf : buffer) :
  (length (D.defaultCharUnicode d) <= 1)%nat ->
  (length (fst (D.write d buf))
   + length (fst (D.end_ (snd (D.write d buf))))
   <= length buf + if D.hasState d then 1 else 0)%nat.
Proof.
  intros Hdcu. unfold D.write, D.end_, D.hasState.
  cbn [fst snd D.contBytes D.defaultCharUnicode].
  pose proof (fold_output_bound (D.defaultCharUnicode d) buf
                (D.mkL (D.acc d) (D.contBytes d) (D.accBytes d) []) Hdcu)
    as H.
  cbv zeta in H. cbn [D.l_res D.l_contBytes length] in H.
  destruct (fold_left _ _ _) as [a cb ab res].
  cbn [D.l_res D.l_contBytes] in *.
  destruct (0 <? cb); destruct (0 <? D.contBytes d); cbn [length] in *; lia.
Qed.

(** The theorem above at a concrete input. *)
Lemma cesu8_decoder_output_bound_witness :
  (length (fst (D.write (D.new [0xFFFD]%Z) [0xE2; 0x41; 0xF0; 0xE2]%Z))
   + length (fst (D.end_ (snd (D.write (D.new [0xFFFD]%Z)
                                 [0xE2; 0x41; 0xF0; 0xE2]%Z))))
   <= 4)%nat.
Proof.
  exact (cesu8_decoder_output_bound (D.new [0xFFFD])
           [0xE2; 0x41; 0xF0; 0xE2] (Nat.le_refl 1)).
Defined.

End Cesu8More.

(* ================================================================== *)
(** ** More on the base64 encoder *)

Module Base64More.
Import JS Base64Facts.
Module B := Base64Encoder.

(** [completeQuads], as a number of characters. *)
Lemma completeQuads_nat n :
  Z.to_nat (Z.of_nat n - Z.of_nat n mod 4) = (n - n mod 4)%nat.
Proof.
  change 4 with (Z.of_nat 4). rewrite <- Nat2Z.inj_mod.
  pose proof (Nat.Div0.mod_le n 4). lia.
Qed.

Lemma completeQuads_le n : (n - n mod 4 <= n)%nat.
Proof. lia. Qed.

Lemma completeQuads_mod n : ((n - n mod 4) mod 4 = 0)%nat.
Proof.
  pose proof (Nat.div_mod_eq n 4) as H.
  replace (n - n mod 4)%nat with (n / 4 * 4)%nat by lia.
  apply Nat.Div0.mod_mul.
Qed.

(** X7. A [write] of the base64 encoder loses no character: it decodes
    a whole number of quads, keeps what is left, fewer than 4
    characters, for the next call, and the quads followed by what it
    keeps are what it held followed by [str]. *)
Theorem base64_write_keeps_rest (base64_decode : jsstring -> buffer)
  (e : B.t) (str : jsstring) :
  exists quads,
    fst (B.write base64_decode e str) = base64_decode quads
    /\ quads ++ B.prevStr (snd (B.write base64_decode e str))
       = B.prevStr e ++ str
    /\ (length quads mod 4 = 0)%nat
    /\ length (B.prevStr (snd (B.write base64_decode e str)))
       = ((length (B.prevStr e) + length str) mod 4)%nat
    /\ B.hasState (snd (B.write base64_decode e str))
       = negb ((length (B.prevStr e) + length str) mod 4 =? 0)%nat.
Proof.
  unfold B.write, B.hasState, slice_to, slice_from. cbn [fst snd B.prevStr].
  set (s := B.prevStr e ++ str).
  assert (Hlen : length s = (length (B.prevStr e) + length str)%nat)
    by (unfold s; apply length_app).
  rewrite completeQuads_nat. rewrite <- Hlen.
  pose proof (completeQuads_le (length s)) as Hle.
  pose proof (Nat.mod_upper_bound (length s) 4 ltac:(lia)) as Hlt.
  pose proof (Nat.Div0.mod_le (length s) 4) as Hmod.
  exists (firstn (length s - length s mod 4) s).
  assert (Hrest : length (skipn (length s - length s mod 4) s)
                  = (length s mod 4)%nat)
    by (rewrite length_skipn; lia).
  split; [reflexivity |]. split; [apply firstn_skipn |].
  split; [rewrite length_firstn, Nat.min_l by lia; apply completeQuads_mod |].
  split; [exact Hrest |].
  rewrite Hrest.
  destruct (length s mod 4)%nat; reflexivity.
Qed.

(** *** [byteLength] *)

Lemma search_from_le s : forall p,
  B.search_from s p <= p + Z.of_nat (length s).
Proof.
  induction s as [| c s IH]; intros p; cbn [B.search_from].
  - cbn. lia.
  - destruct (B.only_padding (c :: s)); [lia |].
    specialize (IH (p + 1)). cbn [length]. lia.
Qed.

Lemma search_from_no_padding s : forall p,
  Forall (fun c => c <> 61) s ->
  B.search_from s p = p + Z.of_nat (length s).
Proof.
  induction s as [| c s IH]; intros p Hs; cbn [B.search_from].
  - cbn. lia.
  - inversion Hs as [| ? ? Hc Hs']; subst.
    unfold B.only_padding. cbn [forallb].
    destruct (Z.eqb_spec c 61); [contradiction |]. cbn [andb].
    rewrite IH by exact Hs'. cbn [length]. lia.
Qed.

Lemma thirds n :
  0 <= n ->
  ((n - n mod 4) * 3) / 4 + ((n mod 4) * 3) / 4 = (n * 3) / 4.
Proof. intros Hn. Z.to_euclidean_division_equations. lia. Qed.

Lemma portions_length (s : jsstring) :
  Z.of_nat (length (firstn (length s - length s mod 4) s))
  = Z.of_nat (length s) - Z.of_nat (length s) mod 4
  /\ Z.of_nat (length (skipn (length s - length s mod 4) s))
     = Z.of_nat (length s) mod 4.
Proof.
  pose proof (completeQuads_le (length s)).
  pose proof (Nat.Div0.mod_le (length s) 4).
  rewrite length_firstn, length_skipn, Nat.min_l by lia.
  change 4 with (Z.of_nat 4). rewrite <- Nat2Z.inj_mod. lia.
Qed.

Lemma portions_forall {A} (P : A -> Prop) n (l : list A) :
  Forall P l -> Forall P (firstn n l) /\ Forall P (skipn n l).
Proof.
  intros H. rewrite <- (firstn_skipn n l) in H.
  apply Forall_app in H. exact H.
Qed.

(** X8. [byteLength(str)] of the base64 encoder is never more than
    [floor(3 * str.length / 4)], and never negative. *)
Theorem base64_byteLength_range (e : B.t) (str : jsstring) :
  0 <= B.byteLength e str <= (Z.of_nat (length str) * 3) / 4.
Proof.
  rewrite byteLength_eq. cbv zeta. rewrite completeQuads_nat.
  destruct (portions_length str) as [Hq Ht].
  pose proof (search_padding_bound (firstn (length str - length str mod 4) str)).
  pose proof (search_padding_bound (skipn (length str - length str mod 4) str)).
  pose proof (count_data_nonneg (firstn (length str - length str mod 4) str)).
  pose proof (count_data_nonneg (skipn (length str - length str mod 4) str)).
  pose proof (search_from_le (firstn (length str - length str mod 4) str) 0)
    as Hs1.
  pose proof (search_from_le (skipn (length str - length str mod 4) str) 0)
    as Hs2.
  fold (B.search_padding (firstn (length str - length str mod 4) str)) in Hs1.
  fold (B.search_padding (skipn (length str - length str mod 4) str)) in Hs2.
  rewrite Hq in Hs1. rewrite Ht in Hs2.
  rewrite <- (thirds (Z.of_nat (length str))) by lia.
  split.
  - apply Z.add_nonneg_nonneg; apply Z.div_pos; lia.
  - apply Z.add_le_mono; apply Z.div_le_mono; lia.
Qed.

(** X9. For a string without '=', [byteLength(str)] of the base64
    encoder is exactly [floor(3 * str.length / 4)]. *)
Theorem base64_byteLength_unpadded (e : B.t) (str : jsstring) :
  Forall (fun c => c <> 61) str ->
  B.byteLength e str = (Z.of_nat (length str) * 3) / 4.
Proof.
  intros Hs. rewrite byteLength_eq. cbv zeta. rewrite completeQuads_nat.
  destruct (portions_length str) as [Hq Ht].
  unfold B.search_padding.
  rewrite !search_from_no_padding.
  - rewrite Hq, Ht, !Z.add_0_l. apply thirds. lia.
  - apply (proj2 (portions_forall _ _ _ Hs)).
  - apply (proj1 (portions_forall _ _ _ Hs)).
Qed.

(** The theorem above at "QUJDRA". *)
Lemma base64_byteLength_unpadded_witness :
  Forall (fun c => c <> 61) [81; 85; 74; 68; 82; 65]
  /\ B.byteLength B.new [81; 85; 74; 68; 82; 65] = 4.
Proof.
  assert (Hs : Forall (fun c => c <> 61) [81; 85; 74; 68; 82; 65])
    by (repeat constructor; lia).
  split; [exact Hs |].
  exact (base64_byteLength_unpadded B.new _ Hs).
Defined.

End Base64More.

(* ================================================================== *)
(** ** More on the UTF-32 sessions *)

Module Utf32Points.
Import JS JSFacts Exn Unicode Utf32Spec Utf32EncoderNotions Runs.
Import Utf32EncoderFacts Utf32DecoderFacts.
Module E := Utf32Encoder.
Module D := Utf32Decoder.

(** *** The groups of the encoder *)

Lemma groups4_bytes32 isLE v rest :
  groups4 (E.bytes32 isLE v ++ rest) = quad_of isLE v :: groups4 rest
  /\ leftover (E.bytes32 isLE v ++ rest) = leftover rest.
Proof. unfold E.bytes32, quad_of. destruct isLE; split; reflexivity. Qed.

Lemma groups4_points isLE cps :
  groups4 (flat_map (E.bytes32 isLE) cps) = map (quad_of isLE) cps
  /\ leftover (flat_map (E.bytes32 isLE) cps) = [].
Proof.
  induction cps as [| cp cps [IH1 IH2]]; [split; reflexivity |].
  cbn [flat_map map].
  destruct (groups4_bytes32 isLE cp (flat_map (E.bytes32 isLE) cps))
    as [-> ->].
  rewrite IH1, IH2. split; reflexivity.
Qed.

Lemma bytes32_is_byte isLE v : Forall is_byte (E.bytes32 isLE v).
Proof.
  unfold E.bytes32, is_byte.
  destruct isLE; repeat constructor; apply Z.mod_pos_bound; lia.
Qed.

Lemma points_are_bytes isLE cps :
  Forall is_byte (flat_map (E.bytes32 isLE) cps).
Proof.
  induction cps as [| cp cps IH]; cbn [flat_map]; [constructor |].
  apply Forall_app. split; [apply bytes32_is_byte | exact IH].
Qed.

(** The four octets of a value below 2^31 read back as the value. *)
Lemma value_of_quad isLE v :
  0 <= v < 2147483648 -> group_value isLE (quad_of isLE v) = v.
Proof.
  intros Hv. unfold group_value, quad_of, value_of.
  destruct isLE; rewrite ToInt32_small; Z.to_euclidean_division_equations; lia.
Qed.

Lemma decode_group_quad isLE badChar v :
  0 <= v < 2147483648 ->
  decode_group isLE badChar (quad_of isLE v) = emit badChar v.
Proof.
  intros Hv. pose proof (value_of_quad isLE v Hv) as H.
  unfold group_value in H. unfold decode_group.
  destruct (quad_of isLE v) as [[[x0 x1] x2] x3]. now rewrite H.
Qed.

(** Decoding the groups of code points gives what the code points
    stand for. *)
Lemma decode_points isLE badChar cps :
  Forall (fun cp => 0 <= cp <= 0x10FFFF) cps ->
  decode isLE badChar (flat_map (E.bytes32 isLE) cps)
  = flat_map (emit badChar) cps.
Proof.
  intros Hcps. unfold decode.
  rewrite (proj1 (groups4_points isLE cps)).
  induction Hcps as [| cp cps Hcp _ IH]; [reflexivity |].
  cbn [map flat_map]. rewrite decode_group_quad by lia. now rewrite IH.
Qed.

Lemma emit_unit badChar c : 0 <= c < 0x10000 -> emit badChar c = [c].
Proof.
  intros Hc. unfold emit.
  destruct (Z.ltb_spec c 0); [lia |].
  destruct (Z.ltb_spec 0x10FFFF c); [lia |].
  destruct (Z.leb_spec 0x10000 c); [lia | reflexivity].
Qed.

Lemma emit_pair badChar h l :
  is_high h -> is_low l ->
  emit badChar ((h - 0xD800) * 1024 + (l - 0xDC00) + 0x10000) = [h; l].
Proof.
  unfold is_high, is_low. intros Hh Hl. unfold emit.
  destruct (Z.ltb_spec ((h - 0xD800) * 1024 + (l - 0xDC00) + 0x10000) 0);
    [lia |].
  destruct (Z.ltb_spec 0x10FFFF
              ((h - 0xD800) * 1024 + (l - 0xDC00) + 0x10000)); [lia |].
  destruct (Z.leb_spec 0x10000
              ((h - 0xD800) * 1024 + (l - 0xDC00) + 0x10000)); [| lia].
  cbn [orb]. unfold utf16_of, high_of, low_of.
  f_equal; [| f_equal]; Z.to_euclidean_division_equations; lia.
Qed.

Lemma write32_inv isLE cap dst v d :
  E.write32 isLE cap dst v = Ok d -> d = dst ++ E.bytes32 isLE v.
Proof.
  unfold E.write32. destruct (_ && _); [| discriminate].
  intros H. now injection H as <-.
Qed.

Lemma pending_units_high hs : is_high hs -> pending_units hs = [hs].
Proof. intros H. unfold pending_units. now rewrite (truthy_high hs H). Qed.

(** A turn which returns stores the octets of code points which, with
    what is pending afterwards, stand for what was pending before and
    the code unit read. *)
Lemma write_step_points isLE cap badChar hs dst c hs1 dst1 :
  is_u16 c -> hs_ok hs ->
  E.write_step isLE cap (hs, dst) c = Ok (hs1, dst1) ->
  exists cps,
    dst1 = dst ++ flat_map (E.bytes32 isLE) cps
    /\ Forall (fun cp => 0 <= cp <= 0x10FFFF) cps
    /\ flat_map (emit badChar) cps ++ pending_units hs1
       = pending_units hs ++ [c]
    /\ hs_ok hs1.
Proof.
  intros Hc Hhs. unfold is_u16 in Hc.
  unfold E.write_step, E.write_tail.
  destruct Hhs as [-> | Hh].
  - cbn [truthy Z.eqb negb].
    destruct (E.isHighSurrogate c) eqn:Ehigh.
    + intros H. injection H as <- <-.
      apply isHighSurrogate_spec in Ehigh.
      exists []. cbn [flat_map app]. rewrite app_nil_r.
      rewrite (pending_units_high c Ehigh).
      repeat split; [constructor | right; exact Ehigh].
    + destruct (E.write32 isLE cap dst c) as [d |] eqn:Hw;
        cbn [bind]; [| discriminate].
      intros H. injection H as <- <-.
      apply write32_inv in Hw. subst d.
      exists [c]. cbn [flat_map app]. rewrite app_nil_r.
      rewrite emit_unit by lia.
      repeat split; [repeat constructor; lia | left; reflexivity].
  - rewrite (truthy_high hs Hh). rewrite (pending_units_high hs Hh).
    destruct (E.isHighSurrogate c) eqn:Ehigh; cbn [orb].
    + destruct (E.write32 isLE cap dst hs) as [d |] eqn:Hw;
        cbn [bind]; [| discriminate].
      intros H. injection H as <- <-.
      apply write32_inv in Hw. subst d.
      apply isHighSurrogate_spec in Ehigh.
      exists [hs]. cbn [flat_map app]. rewrite app_nil_r.
      rewrite emit_unit by (unfold is_high in Hh; lia).
      rewrite (pending_units_high c Ehigh).
      repeat split;
        [repeat constructor; unfold is_high in Hh; lia | right; exact Ehigh].
    + destruct (E.isLowSurrogate c) eqn:Elow; cbn [negb].
      * apply isLowSurrogate_spec in Elow.
        rewrite combine_value by assumption.
        destruct (E.write32 isLE cap dst _) as [d |] eqn:Hw;
          cbn [bind]; [| discriminate].
        intros H. injection H as <- <-.
        apply write32_inv in Hw. subst d.
        exists [(hs - 0xD800) * 1024 + (c - 0xDC00) + 0x10000].
        cbn [flat_map app]. rewrite !app_nil_r.
        rewrite emit_pair by assumption.
        repeat split;
          [repeat constructor; unfold is_high, is_low in *; lia
          | left; reflexivity].
      * destruct (E.write32 isLE cap dst hs) as [d |] eqn:Hw;
          cbn [bind]; [| discriminate].
        apply write32_inv in Hw. subst d.
        destruct (E.write32 isLE cap _ c) as [d |] eqn:Hw;
          cbn [bind]; [| discriminate].
        intros H. injection H as <- <-.
        apply write32_inv in Hw. subst d.
        exists [hs; c]. cbn [flat_map app]. rewrite !app_nil_r.
        rewrite !emit_unit by (unfold is_high in Hh; lia).
        rewrite <- app_assoc.
        repeat split;
          [repeat constructor; unfold is_high in Hh; lia | left; reflexivity].
Qed.

Lemma write_loop_points isLE cap badChar s : forall hs dst hs' dst',
  Forall is_u16 s -> hs_ok hs ->
  E.write_loop isLE cap (hs, dst) s = Ok (hs', dst') ->
  exists cps,
    dst' = dst ++ flat_map (E.bytes32 isLE) cps
    /\ Forall (fun cp => 0 <= cp <= 0x10FFFF) cps
    /\ flat_map (emit badChar) cps ++ pending_units hs'
       = pending_units hs ++ s
    /\ hs_ok hs'.
Proof.
  induction s as [| c s IH]; intros hs dst hs' dst' Hs Hhs; cbn [E.write_loop].
  - intros H. injection H as <- <-. exists [].
    cbn [flat_map app]. rewrite !app_nil_r.
    repeat split; [constructor | exact Hhs].
  - inversion Hs as [| ? ? Hc Hs']; subst.
    destruct (E.write_step isLE cap (hs, dst) c) as [[hs1 dst1] |] eqn:Hstep;
      cbn [bind]; [| discriminate].
    intros Hloop.
    destruct (write_step_points isLE cap badChar hs dst c hs1 dst1 Hc Hhs Hstep)
      as (cps1 & -> & Hr1 & He1 & Hok1).
    destruct (IH hs1 _ hs' dst' Hs' Hok1 Hloop) as (cps2 & -> & Hr2 & He2 & Hok2).
    exists (cps1 ++ cps2).
    rewrite !flat_map_app, <- !app_assoc.
    split; [reflexivity |]. split; [apply Forall_app; split; assumption |].
    split; [| exact Hok2].
    rewrite He2. rewrite app_assoc, He1, <- app_assoc. reflexivity.
Qed.

End Utf32Points.

Module Utf32More.
Import JS JSFacts Exn Unicode Utf32Spec Utf32EncoderNotions Runs.
Import Utf32EncoderFacts Utf32DecoderFacts Utf32Points.
Module E := Utf32Encoder.
Module D := Utf32Decoder.

(** X10. What the UTF-32 encoder returns for a string, on a fresh
    session, [write] then [end()], the UTF-32 decoder of the same byte
    order turns back into the string: every code unit comes back,
    surrogate pairs and lone surrogates included, nothing is replaced
    and nothing is left in the overflow. *)
Theorem utf32_encode_decode (isLE : bool) (badChar : Z) (s : jsstring) :
  is_u16 badChar -> Forall is_u16 s ->
  exists out e tail e',
    E.write (E.new isLE) s = Ok (out, e)
    /\ E.end_ e = Ok (tail, e')
    /\ D.write (D.mk isLE badChar []) (out ++ end_bytes tail)
       = (s, D.mk isLE badChar []).
Proof.
  intros Hbad Hs.
  destruct (write_loop_counts isLE (2 * length s * 2) s 0 [] Hs)
    as (hs & dst & Hloop & Hhs & _ & _).
  { left. reflexivity. }
  { cbn. lia. }
  destruct (write_loop_points isLE _ badChar s 0 [] hs dst Hs
              (or_introl eq_refl) Hloop) as (cps & -> & Hcps & Hemit & _).
  cbn [app] in *. unfold pending_units at 2 in Hemit.
  cbn [truthy Z.eqb negb app] in Hemit.
  unfold E.write, E.new. cbn [E.isLE E.highSurrogate].
  rewrite Hloop. cbn [bind fst snd].
  destruct Hhs as [-> | Hh].
  - exists (flat_map (E.bytes32 isLE) cps), (E.mk isLE 0), None, (E.mk isLE 0).
    split; [reflexivity |]. split; [reflexivity |].
    cbn [end_bytes]. rewrite app_nil_r.
    rewrite Utf32DecoderClaims.write_fresh
      by (try exact Hbad; apply points_are_bytes).
    rewrite decode_points by exact Hcps.
    rewrite (proj2 (groups4_points isLE cps)).
    unfold pending_units in Hemit. cbn [truthy Z.eqb negb] in Hemit.
    rewrite app_nil_r in Hemit. rewrite Hemit. reflexivity.
  - exists (flat_map (E.bytes32 isLE) cps), (E.mk isLE hs),
      (Some (E.bytes32 isLE hs)), (E.mk isLE 0).
    split; [reflexivity |].
    split; [apply Utf32EncoderPending.end_pending; exact Hh |].
    cbn [end_bytes].
    replace (flat_map (E.bytes32 isLE) cps ++ E.bytes32 isLE hs)
      with (flat_map (E.bytes32 isLE) (cps ++ [hs]))
      by (rewrite flat_map_app; cbn [flat_map]; now rewrite app_nil_r).
    rewrite Utf32DecoderClaims.write_fresh
      by (try exact Hbad; apply points_are_bytes).
    rewrite decode_points
      by (apply Forall_app; split; [exact Hcps |];
          repeat constructor; unfold is_high in Hh; lia).
    rewrite (proj2 (groups4_points isLE (cps ++ [hs]))).
    rewrite flat_map_app. cbn [flat_map].
    rewrite emit_unit by (unfold is_high in Hh; lia).
    rewrite (pending_units_high hs Hh) in Hemit.
    rewrite app_nil_r, Hemit. reflexivity.
Qed.

(** The theorem above at a concrete input. *)
Lemma utf32_encode_decode_witness :
  is_u16 0xFFFD
  /\ Forall is_u16 [0x41; 0xD834; 0xDD1E; 0xDC00; 0xD800]
  /\ exists out e tail e',
       E.write (E.new false) [0x41; 0xD834; 0xDD1E; 0xDC00; 0xD800]
       = Ok (out, e)
       /\ E.end_ e = Ok (tail, e')
       /\ D.write (D.mk false 0xFFFD []) (out ++ end_bytes tail)
          = ([0x41; 0xD834; 0xDD1E; 0xDC00; 0xD800], D.mk false 0xFFFD []).
Proof.
  assert (Hbad : is_u16 0xFFFD) by (unfold is_u16; lia).
  assert (Hs : Forall is_u16 [0x41; 0xD834; 0xDD1E; 0xDC00; 0xD800])
    by (repeat constructor; unfold is_u16; lia).
  split; [exact Hbad |]. split; [exact Hs |].
  exact (utf32_encode_decode false 0xFFFD _ Hbad Hs).
Defined.

(** *** What the encoder holds after a [write] *)

Lemma write_step_pending isLE cap hs dst c hs1 dst1 :
  E.write_step isLE cap (hs, dst) c = Ok (hs1, dst1) ->
  hs1 = if E.isHighSurrogate c then c else 0.
Proof.
  unfold E.write_step, E.write_tail.
  destruct (truthy hs); destruct (E.isHighSurrogate c) eqn:Ehigh; cbn [orb].
  - destruct (E.write32 _ _ _ _); cbn [bind]; [| discriminate].
    intros H. now injection H as <- _.
  - destruct (negb (E.isLowSurrogate c)).
    + destruct (E.write32 _ _ _ _); cbn [bind]; [| discriminate].
      destruct (E.write32 _ _ _ _); cbn [bind]; [| discriminate].
      intros H. now injection H as <- _.
    + destruct (E.write32 _ _ _ _); cbn [bind]; [| discriminate].
      intros H. now injection H as <- _.
  - intros H. now injection H as <- _.
  - destruct (E.write32 _ _ _ _); cbn [bind]; [| discriminate].
    intros H. now injection H as <- _.
Qed.

Lemma write_loop_pending isLE cap s : forall hs dst hs' dst',
  s <> [] ->
  E.write_loop isLE cap (hs, dst) s = Ok (hs', dst') ->
  hs' = if E.isHighSurrogate (last s 0) then last s 0 else 0.
Proof.
  induction s as [| c s IH]; intros hs dst hs' dst' Hne; [contradiction |].
  cbn [E.write_loop].
  destruct (E.write_step isLE cap (hs, dst) c) as [[hs1 dst1] |] eqn:Hstep;
    cbn [bind]; [| discriminate].
  destruct s as [| c2 s].
  - cbn [E.write_loop last]. intros H. injection H as <- _.
    eapply write_step_pending. exact Hstep.
  - intros Hloop. change (last (c :: c2 :: s) 0) with (last (c2 :: s) 0).
    eapply IH; [discriminate | exact Hloop].
Qed.

(** X11. After a [write] of a non-empty string which returns, the
    UTF-32 encoder has state exactly when the last code unit of the
    string is a high surrogate, whatever was pending before. *)
Theorem utf32_encoder_hasState_last (e e' : E.t) (s : jsstring)
  (out : buffer) :
  s <> [] -> E.write e s = Ok (out, e') ->
  E.hasState e' = E.isHighSurrogate (last s 0)
  /\ E.highSurrogate e'
     = if E.isHighSurrogate (last s 0) then last s 0 else 0.
Proof.
  intros Hne. unfold E.write.
  destruct (E.write_loop _ _ _ s) as [[hs dst] |] eqn:Hloop;
    cbn [bind]; [| discriminate].
  intros H. injection H as _ <-. cbn [fst E.hasState E.highSurrogate].
  pose proof (write_loop_pending _ _ s _ _ hs dst Hne Hloop) as ->.
  split; [| reflexivity].
  unfold E.hasState. cbn [E.highSurrogate].
  destruct (E.isHighSurrogate (last s 0)) eqn:Ehigh; [| reflexivity].
  apply truthy_high. apply isHighSurrogate_spec. exact Ehigh.
Qed.

(** The theorem above at a concrete input. *)
Lemma utf32_encoder_hasState_last_witness :
  E.hasState (E.mk true 0xD834) = true
  /\ E.write (E.mk true 0xD834) [0xDD1E; 0x41]
     = Ok ([0x1E; 0xD1; 0x01; 0x00; 0x41; 0; 0; 0], E.mk true 0)
  /\ E.hasState (E.mk true 0) = false.
Proof.
  assert (Hw : E.write (E.mk true 0xD834) [0xDD1E; 0x41]
               = Ok ([0x1E; 0xD1; 0x01; 0x00; 0x41; 0; 0; 0], E.mk true 0))
    by (vm_compute; reflexivity).
  split; [reflexivity |]. split; [exact Hw |].
  exact (proj1 (utf32_encoder_hasState_last _ _ [0xDD1E; 0x41] _
                  ltac:(discriminate) Hw)).
Defined.

End Utf32More.

Module Utf32DecoderMore.
Import JS JSFacts Unicode Utf32Spec Utf32DecoderFacts Runs.
Module D := Utf32Decoder.

(** *** The overflow *)

Lemma leftover_length rest :
  length (leftover rest) = (length rest mod 4)%nat.
Proof.
  induction rest as [| a | a b | a b c | b0 b1 b2 b3 rest IH]
    using list_quad_ind; try reflexivity.
  cbn [leftover length]. rewrite IH.
  replace (S (S (S (S (length rest))))) with (length rest + 1 * 4)%nat by lia.
  now rewrite Nat.Div0.mod_add.
Qed.

Lemma main_loop_overflow isLE badChar rest : forall dst overflow,
  snd (D.main_loop isLE badChar dst overflow rest) = overflow ++ leftover rest.
Proof.
  induction rest as [| a | a b | a b c | b0 b1 b2 b3 rest IH]
    using list_quad_ind; intros dst overflow; try reflexivity.
  cbn [D.main_loop leftover]. apply IH.
Qed.

(** The loop which fills the overflow stops when it holds 4 octets or
    when [src] is used up. *)
Lemma drain_stops rest : forall overflow i,
  (length overflow <= 4)%nat ->
  let r := D.drain overflow rest i in
  (length (fst (fst r)) = 4)%nat
  \/ (snd (fst r) = [] /\ (length (fst (fst r)) < 4)%nat).
Proof.
  induction rest as [| b rest IH]; intros overflow i Hlen; cbn [D.drain].
  - cbv zeta. cbn [fst snd].
    destruct (Nat.eq_dec (length overflow) 4); [left; assumption |].
    right. split; [reflexivity | lia].
  - destruct (Nat.ltb_spec (length overflow) 4).
    + apply IH. rewrite length_app. cbn [length]. lia.
    + cbv zeta. cbn [fst snd]. left. lia.
Qed.

(** X12. A [write] of the UTF-32 decoder leaves at most 3 octets in the
    overflow when it found at most 3; a [write] which found the
    overflow empty leaves the [src.length mod 4] last octets of [src],
    so that the decoder has state exactly when [src.length] is no
    multiple of 4. *)
Theorem utf32_decoder_overflow (d : D.t) (src : buffer) :
  (length (D.overflow d) <= 3)%nat ->
  (length (D.overflow (snd (D.write d src))) <= 3)%nat
  /\ (D.overflow d = [] ->
      D.overflow (snd (D.write d src)) = leftover src
      /\ D.hasState (snd (D.write d src))
         = negb (length src mod 4 =? 0)%nat).
Proof.
  intros Hlen.
  unfold D.write, D.write_octets, D.hasState.
  destruct src as [| b0 src'].
  { cbn [length Nat.eqb snd]. split; [exact Hlen |].
    intros ->. split; reflexivity. }
  change (length (b0 :: src') =? 0)%nat with false. cbv iota.
  remember (b0 :: src') as src eqn:Esrc. clear Esrc.
  pose proof (leftover_length src) as Hsrc.
  pose proof (Nat.mod_upper_bound (length src) 4 ltac:(lia)) as Hmod.
  destruct (Nat.ltb_spec 0 (length (D.overflow d))) as [Hpos | Hzero].
  - pose proof (drain_stops src (D.overflow d) 0 ltac:(lia)) as Hd.
    cbv zeta in Hd.
    destruct (D.drain (D.overflow d) src 0) as [[ov rest] i].
    cbn [fst snd] in Hd.
    split.
    + destruct (Nat.eqb_spec (length ov) 4) as [H4 | H4].
      * pose proof (main_loop_overflow (D.isLE d) (D.badChar d) rest
                      (D._writeCodepoint []
                         (D.codepoint_of (D.isLE d) (num (index ov i))
                            (num (index ov (i + 1))) (num (index ov (i + 2)))
                            (num (index ov (i + 3)))) (D.badChar d)) [])
          as Hm.
        destruct (D.main_loop _ _ _ _ _) as [dst ov'].
        cbn [snd D.overflow] in *. subst ov'. cbn [app].
        rewrite leftover_length.
        pose proof (Nat.mod_upper_bound (length rest) 4 ltac:(lia)). lia.
      * destruct Hd as [Hd | [-> Hd]]; [contradiction |].
        cbn [D.main_loop snd D.overflow]. rewrite app_nil_r. lia.
    + intros Hnil. rewrite Hnil in Hpos. cbn in Hpos. lia.
  - assert (Hnil : D.overflow d = [])
      by (destruct (D.overflow d); [reflexivity | cbn in Hzero; lia]).
    rewrite Hnil.
    pose proof (main_loop_overflow (D.isLE d) (D.badChar d) src [] []) as Hm.
    destruct (D.main_loop _ _ _ _ _) as [dst ov'].
    cbn [snd D.overflow] in *. subst ov'. cbn [app].
    split; [lia |]. intros _. split; [reflexivity |].
    rewrite Hsrc.
    destruct (length src mod 4)%nat; reflexivity.
Qed.

(** The theorem above at a concrete input. *)
Lemma utf32_decoder_overflow_witness :
  (length (D.overflow (D.mk true 0xFFFD [0x41]%Z)) <= 3)%nat
  /\ (length (D.overflow (snd (D.write (D.mk true 0xFFFD [0x41]%Z)
                                 [0; 0; 0; 0x42; 0; 0]%Z))) <= 3)%nat.
Proof.
  assert (H : (length (D.overflow (D.mk true 0xFFFD [0x41]%Z)) <= 3)%nat)
    by (cbn; lia).
  split; [exact H |].
  exact (proj1 (utf32_decoder_overflow (D.mk true 0xFFFD [0x41])
                  [0; 0; 0; 0x42; 0; 0] H)).
Defined.

(** *** Chunks cut between two groups *)

Lemma groups4_app a : forall b,
  (length a mod 4 = 0)%nat ->
  groups4 (a ++ b) = groups4 a ++ groups4 b
  /\ leftover (a ++ b) = leftover b
  /\ leftover a = [].
Proof.
  induction a as [| x | x y | x y z | b0 b1 b2 b3 a IH]
    using list_quad_ind; intros b Hlen; try (cbn in Hlen; discriminate).
  - repeat split; reflexivity.
  - cbn [length] in Hlen.
    replace (S (S (S (S (length a))))) with (length a + 1 * 4)%nat in Hlen
      by lia.
    rewrite Nat.Div0.mod_add in Hlen.
    destruct (IH b Hlen) as (Hg & Hl & Ha).
    cbn [app groups4 leftover]. rewrite Hg, Hl, Ha.
    repeat split; reflexivity.
Qed.

(** X13. When a chunk ends between two groups of four octets, the
    UTF-32 decoder does not see the cut: a fresh decoder written a
    chunk whose length is a multiple of 4 and then another chunk
    returns what it returns for the two written at once, and ends in
    the same state. *)
Theorem utf32_decoder_aligned_chunks (isLE : bool) (badChar : Z)
  (a b : buffer) :
  is_u16 badChar -> Forall is_byte a -> Forall is_byte b ->
  (length a mod 4 = 0)%nat ->
  let d0 := D.mk isLE badChar [] in
  D.write d0 (a ++ b)
  = (fst (D.write d0 a) ++ fst (D.write (snd (D.write d0 a)) b),
     snd (D.write (snd (D.write d0 a)) b)).
Proof.
  intros Hbad Ha Hb Hlen. cbv zeta.
  destruct (groups4_app a b Hlen) as (Hg & Hl & Hnil).
  rewrite (Utf32DecoderClaims.write_fresh isLE badChar a Hbad Ha).
  cbn [fst snd]. rewrite Hnil.
  rewrite (Utf32DecoderClaims.write_fresh isLE badChar b Hbad Hb).
  rewrite Utf32DecoderClaims.write_fresh
    by (try exact Hbad; apply Forall_app; split; assumption).
  cbn [fst snd]. unfold decode. rewrite Hg, Hl, flat_map_app. reflexivity.
Qed.

(** The theorem above at a concrete input. *)
Lemma utf32_decoder_aligned_chunks_witness :
  D.write (D.mk true 0xFFFD []) ([0x41; 0; 0; 0] ++ [0x42; 0; 0; 0; 0x43])
  = ([0x41] ++ [0x42], D.mk true 0xFFFD [0x43]).
Proof.
  assert (Hbad : is_u16 0xFFFD) by (unfold is_u16; lia).
  assert (Ha : Forall is_byte [0x41; 0; 0; 0])
    by (repeat constructor; unfold is_byte; lia).
  assert (Hb : Forall is_byte [0x42; 0; 0; 0; 0x43])
    by (repeat constructor; unfold is_byte; lia).
  exact (utf32_decoder_aligned_chunks true 0xFFFD _ _ Hbad Ha Hb eq_refl).
Defined.

(** *** The size of the output *)

Lemma ucs2_toString_length buf :
  (2 * length (ucs2_toString buf) <= length buf)%nat.
Proof.
  induction buf as [| a | a c buf IH] using list_pair_ind;
    cbn [ucs2_toString length]; lia.
Qed.

(** X14. A [write] of the UTF-32 decoder never stores more octets than
    the [src.length + 4] it allocates, whatever the state of the
    session: no store falls outside of [dst], and the string returned
    has at most [(src.length + 4) / 2] code units. *)
Theorem utf32_decoder_output_fits (d : D.t) (src : buffer) :
  (length (fst (D.write_octets d src)) <= length src + 4)%nat
  /\ (2 * length (fst (D.write d src)) <= length src + 4)%nat.
Proof.
  pose proof (Utf32DecoderClaims.write_octets_fit d src) as Hfit.
  split; [exact Hfit |].
  unfold D.write. destruct (D.write_octets d src) as [dst d'].
  cbn [fst] in *. pose proof (ucs2_toString_length dst). lia.
Qed.

End Utf32DecoderMore.

(* ================================================================== *)
(** ** More on the endianness detector *)

Module DetectMore.
Import JS Exn Unicode Utf32Spec DetectSpec Utf32EncoderNotions Runs.
Import DetectFacts Utf32EncoderFacts Utf32Points.
Module A := Utf32Auto.
Module E := Utf32Encoder.

(** The loops on one stream of octets. *)
Lemma detect_stream bytes def :
  A.after_loops (A.inner_loop (A.mkL [] 0 0 0 0 0) bytes) def
  = detect bytes def.
Proof.
  unfold detect.
  destruct bytes as [| b0 [| b1 [| b2 [| b3 rest]]]]; try reflexivity.
  rewrite group_step. cbn [Z.eqb andb groups4 firstn].
  change 100%nat with (S 99). cbn [firstn].
  destruct (is_bom_le (b0, b1, b2, b3)); [reflexivity |].
  destruct (is_bom_be (b0, b1, b2, b3)); [reflexivity |].
  cbn [Z.add Z.leb Z.compare Pos.compare Pos.compare_cont].
  unfold counted.
  rewrite (scan def rest 99) by (cbn; lia).
  rewrite <- decide_by_score. cbn [count].
  rewrite !Z.add_assoc. reflexivity.
Qed.

Lemma detectEncoding_stream bufs def :
  A.detectEncoding bufs def = detect (concat bufs) def.
Proof.
  unfold A.detectEncoding. rewrite outer_loop_concat. apply detect_stream.
Qed.

(** X15. The detector returns 'utf-32le', 'utf-32be' or what
    [defaultEncoding || "utf-32le"] is, and nothing else. *)
Theorem detectEncoding_range (bufs : list buffer) (def : option string) :
  A.detectEncoding bufs def = "utf-32le"%string
  \/ A.detectEncoding bufs def = "utf-32be"%string
  \/ A.detectEncoding bufs def = A.or_default def.
Proof.
  rewrite detectEncoding_stream. unfold detect, by_score, A.or_default.
  destruct (firstn 100 (groups4 (concat bufs))) as [| g gs].
  - destruct (scoreLE [] <? scoreBE []); [auto |].
    destruct (scoreBE [] <? scoreLE []); auto.
  - destruct (is_bom_le g); [auto |]. destruct (is_bom_be g); [auto |].
    destruct (scoreLE (g :: gs) <? scoreBE (g :: gs)); [auto |].
    destruct (scoreBE (g :: gs) <? scoreLE (g :: gs)); auto.
Qed.

Lemma groups4_firstn k : forall bytes,
  groups4 (firstn (4 * k) bytes) = firstn k (groups4 bytes).
Proof.
  induction k as [| k IH]; intros bytes.
  - reflexivity.
  - replace (4 * S k)%nat with (S (S (S (S (4 * k))))) by lia.
    destruct bytes as [| b0 [| b1 [| b2 [| b3 rest]]]]; try reflexivity.
    cbn [firstn groups4]. now rewrite IH.
Qed.

(** X16. The detector reads the first 400 octets of the stream and no
    more: the chunks give what their first 400 octets, as one chunk,
    give. *)
Theorem detectEncoding_first_400 (bufs : list buffer) (def : option string) :
  A.detectEncoding bufs def
  = A.detectEncoding [firstn 400 (concat bufs)] def.
Proof.
  rewrite !detectEncoding_stream. cbn [concat]. rewrite app_nil_r.
  unfold detect.
  change 400%nat with (4 * 100)%nat.
  rewrite groups4_firstn, firstn_firstn, Nat.min_id. reflexivity.
Qed.

(** *** The detector on what the encoder returns *)

Lemma count_all p (gs : list group) :
  Forall (fun g => p g = true) gs -> count p gs = Z.of_nat (length gs).
Proof.
  induction 1 as [| g gs Hg _ IH]; [reflexivity |].
  cbn [count length]. rewrite Hg, IH. unfold b2z. lia.
Qed.

Lemma count_none p (gs : list group) :
  Forall (fun g => p g = false) gs -> count p gs = 0.
Proof.
  induction 1 as [| g gs Hg _ IH]; [reflexivity |].
  cbn [count]. rewrite Hg, IH. reflexivity.
Qed.

Lemma count_nonneg p (gs : list group) : 0 <= count p gs.
Proof.
  induction gs as [| g gs IH]; cbn [count]; [lia |].
  unfold b2z. destruct (p g); lia.
Qed.

(** The group of a code unit of text, in each byte order. *)
Lemma text_quad_le c :
  is_text_unit c ->
  bmp_le (quad_of true c) = true /\ invalid_le (quad_of true c) = false
  /\ bmp_be (quad_of true c) = false /\ is_bom_be (quad_of true c) = false.
Proof.
  unfold is_text_unit. intros [Hc _].
  unfold quad_of, bmp_le, invalid_le, bmp_be, is_bom_be.
  assert (H2 : (c / 65536) mod 256 = 0)
    by (Z.to_euclidean_division_equations; lia).
  assert (H3 : (c / 16777216) mod 256 = 0)
    by (Z.to_euclidean_division_equations; lia).
  assert (H01 : c mod 256 <> 0 \/ (c / 256) mod 256 <> 0)
    by (Z.to_euclidean_division_equations; lia).
  rewrite H2, H3. cbn [Z.eqb Z.ltb Z.compare negb orb andb].
  destruct (Z.eqb_spec (c mod 256) 0), (Z.eqb_spec ((c / 256) mod 256) 0);
    cbn [negb orb andb]; repeat split; try reflexivity; lia.
Qed.

Lemma text_quad_be c :
  is_text_unit c ->
  bmp_be (quad_of false c) = true /\ invalid_be (quad_of false c) = false
  /\ bmp_le (quad_of false c) = false /\ is_bom_le (quad_of false c) = false.
Proof.
  unfold is_text_unit. intros [Hc _].
  unfold quad_of, bmp_le, invalid_be, bmp_be, is_bom_le.
  assert (H2 : (c / 65536) mod 256 = 0)
    by (Z.to_euclidean_division_equations; lia).
  assert (H3 : (c / 16777216) mod 256 = 0)
    by (Z.to_euclidean_division_equations; lia).
  assert (H01 : c mod 256 <> 0 \/ (c / 256) mod 256 <> 0)
    by (Z.to_euclidean_division_equations; lia).
  rewrite H2, H3. cbn [Z.eqb Z.ltb Z.compare negb orb andb].
  destruct (Z.eqb_spec (c mod 256) 0), (Z.eqb_spec ((c / 256) mod 256) 0);
    cbn [negb orb andb]; repeat split; try reflexivity; lia.
Qed.

(** The detector on the groups of a text. *)
Lemma detect_text isLE s def :
  s <> [] -> Forall is_text_unit s ->
  detect (flat_map (E.bytes32 isLE) s) def
  = if isLE then "utf-32le"%string else "utf-32be"%string.
Proof.
  intros Hne Hs. unfold detect.
  rewrite (proj1 (groups4_points isLE s)), firstn_map.
  assert (Ht : Forall is_text_unit (firstn 100 s)).
  { apply Forall_forall. intros c Hc. rewrite Forall_forall in Hs.
    apply Hs. rewrite <- (firstn_skipn 100 s). apply in_or_app. now left. }
  assert (Hne' : firstn 100 s <> [])
    by (destruct s; [contradiction | discriminate]).
  set (l := firstn 100 s) in *. clearbody l. clear Hs Hne.
  assert (Hlen : 1 <= Z.of_nat (length (map (quad_of isLE) l))).
  { rewrite length_map. destruct l; [contradiction | cbn [length]; lia]. }
  destruct isLE.
  - assert (Hb : count bmp_le (map (quad_of true) l)
                 = Z.of_nat (length (map (quad_of true) l))).
    { apply count_all. apply Forall_map.
      eapply Forall_impl; [| exact Ht]. intros c Hc.
      apply (text_quad_le c Hc). }
    assert (Hi : count invalid_le (map (quad_of true) l) = 0).
    { apply count_none. apply Forall_map.
      eapply Forall_impl; [| exact Ht]. intros c Hc.
      apply (text_quad_le c Hc). }
    assert (Ho : count bmp_be (map (quad_of true) l) = 0).
    { apply count_none. apply Forall_map.
      eapply Forall_impl; [| exact Ht]. intros c Hc.
      apply (text_quad_le c Hc). }
    pose proof (count_nonneg invalid_be (map (quad_of true) l)) as Hn.
    assert (Hscore : by_score (map (quad_of true) l) def = "utf-32le"%string).
    { unfold by_score, scoreLE, scoreBE. rewrite Hb, Hi, Ho.
      destruct (Z.ltb_spec (Z.of_nat (length (map (quad_of true) l)) - 0)
                  (0 - count invalid_be (map (quad_of true) l))); [lia |].
      destruct (Z.ltb_spec (0 - count invalid_be (map (quad_of true) l))
                  (Z.of_nat (length (map (quad_of true) l)) - 0));
        [reflexivity | lia]. }
    destruct l as [| c l']; [contradiction |].
    inversion Ht as [| ? ? Hc _]; subst.
    destruct (text_quad_le c Hc) as (_ & _ & _ & Hbom).
    cbn [map] in *. rewrite Hbom.
    destruct (is_bom_le (quad_of true c)); [reflexivity | exact Hscore].
  - assert (Hb : count bmp_be (map (quad_of false) l)
                 = Z.of_nat (length (map (quad_of false) l))).
    { apply count_all. apply Forall_map.
      eapply Forall_impl; [| exact Ht]. intros c Hc.
      apply (text_quad_be c Hc). }
    assert (Hi : count invalid_be (map (quad_of false) l) = 0).
    { apply count_none. apply Forall_map.
      eapply Forall_impl; [| exact Ht]. intros c Hc.
      apply (text_quad_be c Hc). }
    assert (Ho : count bmp_le (map (quad_of false) l) = 0).
    { apply count_none. apply Forall_map.
      eapply Forall_impl; [| exact Ht]. intros c Hc.
      apply (text_quad_be c Hc). }
    pose proof (count_nonneg invalid_le (map (quad_of false) l)) as Hn.
    assert (Hscore : by_score (map (quad_of false) l) def = "utf-32be"%string).
    { unfold by_score, scoreLE, scoreBE. rewrite Hb, Hi, Ho.
      destruct (Z.ltb_spec (0 - count invalid_le (map (quad_of false) l))
                  (Z.of_nat (length (map (quad_of false) l)) - 0));
        [reflexivity | lia]. }
    destruct l as [| c l']; [contradiction |].
    inversion Ht as [| ? ? Hc _]; subst.
    destruct (text_quad_be c Hc) as (_ & _ & _ & Hbom).
    cbn [map] in *. rewrite Hbom.
    destruct (is_bom_be (quad_of false c)); [reflexivity | exact Hscore].
Qed.

(** A text without surrogates leaves nothing pending. *)
Lemma write_loop_text isLE cap s : forall dst,
  Forall is_text_unit s -> (length dst + 4 * length s <= cap)%nat ->
  E.write_loop isLE cap (0, dst) s
  = Ok (0, dst ++ flat_map (E.bytes32 isLE) s).
Proof.
  induction s as [| c s IH]; intros dst Hs Hcap; cbn [E.write_loop flat_map].
  - now rewrite app_nil_r.
  - inversion Hs as [| ? ? Hc Hs']; subst. cbn [length] in Hcap.
    destruct Hc as [Hc Hns]. unfold is_surrogate in Hns.
    unfold E.write_step. cbn [truthy Z.eqb negb]. unfold E.write_tail.
    assert (Ehigh : E.isHighSurrogate c = false)
      by (unfold E.isHighSurrogate; lia).
    rewrite Ehigh. rewrite write32_ok by lia. cbn [bind].
    rewrite IH by (try exact Hs'; rewrite length_app, bytes32_length; lia).
    now rewrite <- app_assoc.
Qed.

(** X17. The detector finds the byte order of what the UTF-32 encoder
    returns for a text: for a non-empty string of BMP code units other
    than U+0000 and the surrogates, written to a fresh encoder, the
    octets returned, cut into chunks anywhere, are detected as
    'utf-32le' from the little-endian encoder and as 'utf-32be' from
    the big-endian one, whatever the default. *)
Theorem detectEncoding_of_encoded_text (isLE : bool) (s : jsstring)
  (def : option string) (chunks : list buffer) :
  s <> [] -> Forall is_text_unit s ->
  exists out,
    E.write (E.new isLE) s = Ok (out, E.new isLE)
    /\ (concat chunks = out ->
        A.detectEncoding chunks def
        = if isLE then "utf-32le"%string else "utf-32be"%string).
Proof.
  intros Hne Hs. exists (flat_map (E.bytes32 isLE) s). split.
  - unfold E.write, E.new. cbn [E.isLE E.highSurrogate].
    rewrite write_loop_text by (try exact Hs; cbn [length]; lia).
    reflexivity.
  - intros Hcut. rewrite detectEncoding_stream, Hcut.
    apply detect_text; assumption.
Qed.

(** The theorem above at "Hi" in big-endian order, cut after 3
    octets. *)
Lemma detectEncoding_of_encoded_text_witness :
  Forall is_text_unit [0x48; 0x69]
  /\ E.write (E.new false) [0x48; 0x69]
     = Ok ([0; 0; 0; 0x48; 0; 0; 0; 0x69], E.new false)
  /\ A.detectEncoding [[0; 0; 0]; [0x48; 0; 0; 0; 0x69]]
       (Some "utf-32le"%string)
     = "utf-32be"%string.
Proof.
  assert (Hs : Forall is_text_unit [0x48; 0x69])
    by (repeat constructor; unfold is_surrogate; lia).
  destruct (detectEncoding_of_encoded_text false [0x48; 0x69]
              (Some "utf-32le"%string) [[0; 0; 0]; [0x48; 0; 0; 0; 0x69]]
              ltac:(discriminate) Hs) as (out & Hw & Hd).
  assert (Hout : out = [0; 0; 0; 0x48; 0; 0; 0; 0x69]).
  { assert (Hc : E.write (E.new false) [0x48; 0x69]
                 = Ok ([0; 0; 0; 0x48; 0; 0; 0; 0x69], E.new false))
      by (vm_compute; reflexivity).
    rewrite Hc in Hw. now injection Hw as <-. }
  subst out.
  split; [exact Hs |]. split; [exact Hw |]. exact (Hd eq_refl).
Defined.

End DetectMore.

(* ================================================================== *)
(** ** The UTF-32 auto decoder *)

Module AutoMore.
Import JS Runs.
Module A := Utf32AutoDecoder.
Module D := Utf32Decoder.

Lemma total_length_app xs ys :
  total_length (xs ++ ys) = total_length xs + total_length ys.
Proof.
  unfold total_length. rewrite concat_app, length_app. lia.
Qed.

Lemma total_length_one buf : total_length [buf] = Z.of_nat (length buf).
Proof. unfold total_length. cbn [concat]. now rewrite app_nil_r. Qed.

Lemma total_length_nonneg xs : 0 <= total_length xs.
Proof. unfold total_length. lia. Qed.

(** [replay] adds to [resStr] and reads it nowhere. *)
Lemma replay_res bufs : forall d resStr,
  A.replay d resStr bufs
  = (resStr ++ fst (A.replay d [] bufs), snd (A.replay d [] bufs)).
Proof.
  induction bufs as [| buf bufs IH]; intros d resStr; cbn [A.replay].
  - cbn. now rewrite app_nil_r.
  - destruct (D.write d buf) as [res d1].
    rewrite IH. rewrite (IH d1 ([] ++ res)). cbn [fst snd app].
    now rewrite app_assoc.
Qed.

Lemma replay_app xs ys d :
  A.replay d [] (xs ++ ys)
  = (fst (A.replay d [] xs)
       ++ fst (A.replay (snd (A.replay d [] xs)) [] ys),
     snd (A.replay (snd (A.replay d [] xs)) [] ys)).
Proof.
  revert d. induction xs as [| buf xs IH]; intros d; cbn [app A.replay].
  - cbn [fst snd app]. now destruct (A.replay d [] ys).
  - destruct (D.write d buf) as [res d1]. cbn [app].
    rewrite (replay_res (xs ++ ys)), (replay_res xs). cbn [fst snd].
    rewrite IH. cbn [fst snd]. now rewrite app_assoc.
Qed.

Section Host.
Variable getDecoder : string -> D.t.

Lemma auto_write_all_app xs : forall ys a,
  auto_write_all getDecoder a (xs ++ ys)
  = (fst (auto_write_all getDecoder a xs)
       ++ fst (auto_write_all getDecoder
                 (snd (auto_write_all getDecoder a xs)) ys),
     snd (auto_write_all getDecoder
            (snd (auto_write_all getDecoder a xs)) ys)).
Proof.
  induction xs as [| buf xs IH]; intros ys a; cbn [app auto_write_all].
  - cbn [fst snd app]. now destruct (auto_write_all getDecoder a ys).
  - destruct (A.write getDecoder a buf) as [res a1].
    rewrite IH.
    destruct (auto_write_all getDecoder a1 xs) as [res1 a2]. cbn [fst snd].
    destruct (auto_write_all getDecoder a2 ys) as [res2 a3]. cbn [fst snd].
    now rewrite app_assoc.
Qed.

(** Below 32 octets the decoder only keeps the chunks. *)
Lemma buffering def chunks : forall pre,
  total_length (pre ++ chunks) < 32 ->
  auto_write_all getDecoder (A.mk None pre (total_length pre) def) chunks
  = ([], A.mk None (pre ++ chunks) (total_length (pre ++ chunks)) def).
Proof.
  induction chunks as [| buf chunks IH]; intros pre Hlen;
    cbn [auto_write_all].
  - now rewrite app_nil_r.
  - unfold A.write.
    cbn [A.decoder A.initialBufs A.initialBufsLen A.options_defaultEncoding].
    assert (Hone : total_length pre + Z.of_nat (length buf)
                   = total_length (pre ++ [buf]))
      by (rewrite total_length_app, total_length_one; reflexivity).
    rewrite Hone.
    assert (Hsplit : pre ++ buf :: chunks = (pre ++ [buf]) ++ chunks)
      by (rewrite <- app_assoc; reflexivity).
    rewrite Hsplit in Hlen |- *.
    pose proof (total_length_app (pre ++ [buf]) chunks) as Happ.
    pose proof (total_length_nonneg chunks).
    destruct (Z.ltb_spec (total_length (pre ++ [buf])) 32); [| lia].
    rewrite IH by exact Hlen. reflexivity.
Qed.

(** Once it has chosen, the decoder hands every chunk over. *)
Lemma delegating def chunks : forall d,
  auto_write_all getDecoder (A.mk (Some d) [] 0 def) chunks
  = (fst (A.replay d [] chunks),
     A.mk (Some (snd (A.replay d [] chunks))) [] 0 def).
Proof.
  induction chunks as [| buf chunks IH]; intros d;
    cbn [auto_write_all A.replay]; [reflexivity |].
  unfold A.write.
  cbn [A.decoder A.initialBufs A.initialBufsLen A.options_defaultEncoding].
  destruct (D.write d buf) as [res d1].
  rewrite IH. rewrite (replay_res chunks d1 ([] ++ res)).
  reflexivity.
Qed.

(** X18. A stream of fewer than 32 octets is decoded by [end()] alone:
    every [write] of the auto decoder returns the empty string, the
    decoder has state as soon as it was written an octet, and [end()]
    returns what the decoder chosen by the detector on all the chunks
    returns for them, and leaves no state. *)
Theorem auto_decoder_short_stream (def : option string)
  (chunks : list buffer) :
  total_length chunks < 32 ->
  let r := auto_write_all getDecoder (A.new def) chunks in
  fst r = []
  /\ A.hasState (snd r) = negb (total_length chunks =? 0)
  /\ fst (A.end_ getDecoder (snd r))
     = fst (A.replay (getDecoder (Utf32Auto.detectEncoding chunks def))
              [] chunks)
  /\ A.hasState (snd (A.end_ getDecoder (snd r))) = false.
Proof.
  intros Hlen. cbv zeta.
  pose proof (buffering def chunks [] Hlen) as Hb.
  change (A.mk None [] (total_length []) def) with (A.new def) in Hb.
  cbn [app] in Hb. rewrite Hb. cbn [fst snd].
  split; [reflexivity |].
  split; [unfold A.hasState; cbn [A.initialBufsLen A.decoder];
          now rewrite orb_false_r |].
  unfold A.end_.
  cbn [A.decoder A.initialBufs A.initialBufsLen A.options_defaultEncoding].
  destruct (A.replay _ [] chunks) as [resStr d]. cbn [D.end_ fst snd].
  split; [apply app_nil_r | reflexivity].
Qed.

(** X19. From the [write] which brings the stream to 32 octets on, the
    auto decoder is the UTF-32 decoder the detector chooses on the
    chunks written so far: that [write] returns what the chosen
    decoder returns for all of them, and every later chunk goes
    straight to it. Together the calls return what the chosen decoder
    returns for the whole stream. *)
Theorem auto_decoder_delegates (def : option string)
  (pre : list buffer) (buf : buffer) (rest : list buffer) :
  total_length pre < 32 -> 32 <= total_length (pre ++ [buf]) ->
  let d0 := getDecoder (Utf32Auto.detectEncoding (pre ++ [buf]) def) in
  auto_write_all getDecoder (A.new def) (pre ++ buf :: rest)
  = (fst (A.replay d0 [] (pre ++ buf :: rest)),
     A.mk (Some (snd (A.replay d0 [] (pre ++ buf :: rest)))) [] 0 def).
Proof.
  intros Hpre Hfull. cbv zeta.
  rewrite auto_write_all_app.
  pose proof (buffering def pre [] Hpre) as Hb.
  change (A.mk None [] (total_length []) def) with (A.new def) in Hb.
  cbn [app] in Hb. rewrite Hb. cbn [fst snd app auto_write_all].
  unfold A.write.
  cbn [A.decoder A.initialBufs A.initialBufsLen A.options_defaultEncoding].
  assert (Hone : total_length pre + Z.of_nat (length buf)
                 = total_length (pre ++ [buf]))
    by (rewrite total_length_app, total_length_one; reflexivity).
  rewrite Hone.
  destruct (Z.ltb_spec (total_length (pre ++ [buf])) 32); [lia |].
  replace (pre ++ buf :: rest) with ((pre ++ [buf]) ++ rest)
    by (rewrite <- app_assoc; reflexivity).
  set (d0 := getDecoder (Utf32Auto.detectEncoding (pre ++ [buf]) def)).
  rewrite (replay_app (pre ++ [buf]) rest d0).
  destruct (A.replay d0 [] (pre ++ [buf])) as [resStr d]. cbn [fst snd].
  rewrite delegating. reflexivity.
Qed.

End Host.

(** The theorems above at concrete inputs. *)
Lemma auto_decoder_short_stream_witness :
  total_length [[0x41; 0]; [0; 0; 0x42]] < 32
  /\ fst (auto_write_all (fun _ => D.new true [0xFFFD]) (A.new None)
            [[0x41; 0]; [0; 0; 0x42]]) = [].
Proof.
  assert (H : total_length [[0x41; 0]; [0; 0; 0x42]] < 32)
    by (vm_compute; reflexivity).
  split; [exact H |].
  exact (proj1 (auto_decoder_short_stream (fun _ => D.new true [0xFFFD])
                  None [[0x41; 0]; [0; 0; 0x42]] H)).
Defined.

Lemma auto_decoder_delegates_witness :
  total_length [repeat 0 28] < 32
  /\ 32 <= total_length ([repeat 0 28] ++ [[0x41; 0; 0; 0]])
  /\ fst (auto_write_all (fun _ => D.new true [0xFFFD]) (A.new None)
            ([repeat 0 28] ++ [0x41; 0; 0; 0] :: [[0x42; 0; 0; 0]]))
     = repeat 0 7 ++ [0x41; 0x42].
Proof.
  assert (H1 : total_length [repeat 0 28] < 32) by (vm_compute; reflexivity).
  assert (H2 : 32 <= total_length ([repeat 0 28] ++ [[0x41; 0; 0; 0]]))
    by (vm_compute; discriminate).
  split; [exact H1 |]. split; [exact H2 |].
  exact (f_equal fst
           (auto_decoder_delegates (fun _ => D.new true [0xFFFD]) None
              [repeat 0 28] [0x41; 0; 0; 0] [[0x42; 0; 0; 0]] H1 H2)).
Defined.

End AutoMore.

(* ================================================================== *)
(** ** Two writes and one *)

Module TwoWrites.
Import JS Unicode Utf32Spec Base64More Utf32DecoderMore.
Module B := Base64Encoder.
Module D := Utf32Decoder.

Lemma quads_after n b :
  (n - n mod 4 + (n mod 4 + b - (n mod 4 + b) mod 4)
   = n + b - (n + b) mod 4)%nat.
Proof.
  pose proof (Nat.Div0.mod_le n 4) as H1.
  pose proof (Nat.Div0.mod_le (n mod 4 + b) 4) as H2.
  rewrite (Nat.Div0.add_mod_idemp_l n b 4) in *. lia.
Qed.

(** X20. Two writes of the base64 encoder hand the decoder of the
    platform, in two parts, the very characters one [write] of the two
    strings hands it, and keep the same characters for the next call:
    only the decoder may see the cut. *)
Theorem base64_two_writes (base64_decode : jsstring -> buffer)
  (e : B.t) (s1 s2 : jsstring) :
  let r1 := B.write base64_decode e s1 in
  let r2 := B.write base64_decode (snd r1) s2 in
  exists q1 q2,
    fst r1 = base64_decode q1
    /\ fst r2 = base64_decode q2
    /\ B.write base64_decode e (s1 ++ s2)
       = (base64_decode (q1 ++ q2), snd r2).
Proof.
  cbv zeta. unfold B.write, slice_to, slice_from.
  cbn [fst snd B.prevStr]. rewrite !completeQuads_nat.
  set (l := B.prevStr e ++ s1).
  replace (B.prevStr e ++ s1 ++ s2) with (l ++ s2)
    by (unfold l; now rewrite app_assoc).
  pose proof (Nat.Div0.mod_le (length l) 4) as Hmod.
  assert (Hkept : length (skipn (length l - length l mod 4) l)
                  = (length l mod 4)%nat)
    by (rewrite length_skipn; lia).
  rewrite !length_app, Hkept.
  assert (Hcut : skipn (length l - length l mod 4) l ++ s2
                 = skipn (length l - length l mod 4) (l ++ s2)).
  { rewrite skipn_app.
    replace (length l - length l mod 4 - length l)%nat with 0%nat by lia.
    reflexivity. }
  assert (Hrest : skipn (length l mod 4 + length s2
                         - (length l mod 4 + length s2) mod 4)
                    (skipn (length l - length l mod 4) l ++ s2)
                  = skipn (length l + length s2
                           - (length l + length s2) mod 4) (l ++ s2)).
  { rewrite Hcut, skipn_skipn. f_equal.
    rewrite Nat.add_comm. apply quads_after. }
  exists (firstn (length l - length l mod 4) l),
    (firstn (length l mod 4 + length s2
             - (length l mod 4 + length s2) mod 4)
       (skipn (length l - length l mod 4) l ++ s2)).
  split; [reflexivity |]. split; [reflexivity |].
  rewrite Hrest. f_equal. f_equal.
  apply (app_inv_tail
           (skipn (length l + length s2 - (length l + length s2) mod 4)
              (l ++ s2))).
  rewrite firstn_skipn. rewrite <- Hrest at 1.
  rewrite <- app_assoc, firstn_skipn, app_assoc, firstn_skipn.
  reflexivity.
Qed.

(** X21. The UTF-32 decoder drops an incomplete last group without a
    word: a fresh decoder written complete groups followed by 1 to 3
    more octets returns what it returns for the complete groups alone,
    [end()] adds nothing, no replacement either, and empties the
    overflow. *)
Theorem utf32_decoder_drops_tail (isLE : bool) (badChar : Z)
  (src tail : buffer) :
  is_u16 badChar -> Forall is_byte src -> Forall is_byte tail ->
  (length src mod 4 = 0)%nat -> (length tail < 4)%nat ->
  let d0 := D.mk isLE badChar [] in
  fst (D.write d0 (src ++ tail)) = fst (D.write d0 src)
  /\ D.overflow (snd (D.write d0 (src ++ tail))) = tail
  /\ D.end_ (snd (D.write d0 (src ++ tail))) = ([], d0).
Proof.
  intros Hbad Hsrc Htail Hlen Hshort. cbv zeta.
  destruct (groups4_app src tail Hlen) as (Hg & Hl & _).
  rewrite Utf32DecoderClaims.write_fresh
    by (try exact Hbad; apply Forall_app; split; assumption).
  rewrite (Utf32DecoderClaims.write_fresh isLE badChar src Hbad Hsrc).
  cbn [fst snd D.overflow]. unfold decode. rewrite Hg, Hl.
  assert (Hnone : groups4 tail = [] /\ leftover tail = tail).
  { destruct tail as [| a [| b [| c [| d t]]]]; try (split; reflexivity).
    cbn [length] in Hshort. lia. }
  destruct Hnone as [-> ->]. rewrite app_nil_r.
  repeat split.
Qed.

(** The theorem above at a concrete input. *)
Lemma utf32_decoder_drops_tail_witness :
  D.write (D.mk false 0xFFFD []) ([0; 0; 0; 0x41] ++ [0; 0; 0])
  = ([0x41], D.mk false 0xFFFD [0; 0; 0])
  /\ D.end_ (D.mk false 0xFFFD [0; 0; 0]) = ([], D.mk false 0xFFFD []).
Proof.
  assert (Hbad : is_u16 0xFFFD) by (unfold is_u16; lia).
  assert (Hs : Forall is_byte [0; 0; 0; 0x41])
    by (repeat constructor; unfold is_byte; lia).
  assert (Ht : Forall is_byte [0; 0; 0])
    by (repeat constructor; unfold is_byte; lia).
  destruct (utf32_decoder_drops_tail false 0xFFFD [0; 0; 0; 0x41] [0; 0; 0]
              Hbad Hs Ht eq_refl ltac:(cbn; lia)) as (H1 & H2 & H3).
  split; [| exact H3].
  vm_compute. reflexivity.
Defined.

End TwoWrites.
